(** * tmx: compiling an orthogonal tile map into textured meshes

    A shallow embedding of the Go package [tmx]: the quad emitter
    [appendCard] and the tile compiler [Load] of [gfx.go], and the
    point-list parser [toPoints] of the file of objects, with the
    properties the specification of the package states about them.

    Conventions.
    - A Go [int] is a 64-bit two's complement integer: it is a [Z] and
      arithmetic on it goes through [wrap_int].  A [uint32] is a [Z].
    - [float32] and [float64] are the carriers of a [FloatOps] interface.
      Two implementations are given: [ieee_floats], IEEE 754 binary32 and
      binary64 with round-to-nearest-even (on [SpecFloat]), and
      [exact_floats], the rational numbers the floats stand for.
    - The packages [lmath] and [gfx] are external: the matrices of [lmath]
      are an interface ([Lmath]); the containers of [gfx] are records.
    - Go maps are [gmap]s and slices are lists.  A pointer that [Load]
      stores in a map is the value it points to, written back after each
      change.  The pointers of the arguments are not nil, nor are the
      images of the image mapping; the tileset that [FindTileset] returns
      may be.  A nil dereference or an index out of
      range is [None] in the [option] monad. *)

From Stdlib Require Import ZArith QArith Qround Lqa Ascii String.
From Stdlib Require Import Floats.SpecFloat.
From Stdlib Require Import DecimalString DecimalZ.
From stdpp Require Import base option list gmap strings.

Local Open Scope Z_scope.

(** ** Machine integers *)

(** Go's [int] on the 64-bit platforms: results are reduced to
    [-2^63 .. 2^63-1]. *)
Definition wrap_int (z : Z) : Z := (z + 2 ^ 63) mod 2 ^ 64 - 2 ^ 63.

#[global] Arguments wrap_int : simpl never.

Definition int_sub (a b : Z) : Z := wrap_int (a - b).
Definition int_mul (a b : Z) : Z := wrap_int (a * b).

(** ** Floating point numbers *)

(** The operations of Go's [float32] and [float64] the package uses.
    [f32_of_int] and [f64_of_int] are the conversions [float32(n)] and
    [float64(n)] of an [int]; they also give the numeric literals. *)
Class FloatOps := {
  float32 : Type;
  float64 : Type;
  f32_of_int : Z → float32;
  f32_neg : float32 → float32;
  f32_add : float32 → float32 → float32;
  f32_sub : float32 → float32 → float32;
  f32_div : float32 → float32 → float32;
  f64_of_int : Z → float64;
  f64_add : float64 → float64 → float64;
  f64_sub : float64 → float64 → float64;
  f64_div : float64 → float64 → float64;
  f64_of_f32 : float32 → float64;
  f32_of_f64 : float64 → float32;
}.

(** *** IEEE 754 *)

Module IEEE.

Definition prec32 : Z := 24.
Definition emax32 : Z := 128.
Definition prec64 : Z := 53.
Definition emax64 : Z := 1024.

(** Rounding an integer to the nearest float, ties to even. *)
Definition of_int (prec emax : Z) (n : Z) : spec_float :=
  binary_normalize prec emax n 0 false.

(** Conversion between formats: the value [m * 2^e] is rounded again. *)
Definition convert (prec emax : Z) (x : spec_float) : spec_float :=
  match x with
  | S754_finite s m e => binary_normalize prec emax (cond_Zopp s (Zpos m)) e s
  | _ => x
  end.

(** The float64 of an integer. *)
Definition f64 (n : Z) : spec_float := of_int prec64 emax64 n.

(** The float32 nearest to the quotient of two integers that are floats
    themselves. *)
Definition ratio32 (p q : Z) : spec_float :=
  SFdiv prec32 emax32 (of_int prec32 emax32 p) (of_int prec32 emax32 q).

End IEEE.

Definition ieee_floats : FloatOps := {|
  float32 := spec_float;
  float64 := spec_float;
  f32_of_int := IEEE.of_int IEEE.prec32 IEEE.emax32;
  f32_neg := SFopp;
  f32_add := SFadd IEEE.prec32 IEEE.emax32;
  f32_sub := SFsub IEEE.prec32 IEEE.emax32;
  f32_div := SFdiv IEEE.prec32 IEEE.emax32;
  f64_of_int := IEEE.of_int IEEE.prec64 IEEE.emax64;
  f64_add := SFadd IEEE.prec64 IEEE.emax64;
  f64_sub := SFsub IEEE.prec64 IEEE.emax64;
  f64_div := SFdiv IEEE.prec64 IEEE.emax64;
  f64_of_f32 := IEEE.convert IEEE.prec64 IEEE.emax64;
  f32_of_f64 := IEEE.convert IEEE.prec32 IEEE.emax32;
|}.

(** *** Exact arithmetic *)

(** Every float is the rational it denotes and no operation rounds. *)
Definition exact_floats : FloatOps := {|
  float32 := Q;
  float64 := Q;
  f32_of_int := inject_Z;
  f32_neg := Qopp;
  f32_add := Qplus;
  f32_sub := Qminus;
  f32_div := Qdiv;
  f64_of_int := inject_Z;
  f64_add := Qplus;
  f64_sub := Qminus;
  f64_div := Qdiv;
  f64_of_f32 := λ q, q;
  f32_of_f64 := λ q, q;
|}.

(** ** Package image *)

Module image.

Record Point := { X : Z; Y : Z }.

Record Rectangle := { Min : Point; Max : Point }.

(** [image.Rect]: the corners are put in order. *)
Definition Rect (x0 y0 x1 y1 : Z) : Rectangle :=
  let '(x0, x1) := if decide (x1 < x0) then (x1, x0) else (x0, x1) in
  let '(y0, y1) := if decide (y1 < y0) then (y1, y0) else (y0, y1) in
  {| Min := {| X := x0; Y := y0 |}; Max := {| X := x1; Y := y1 |} |}.

Definition Dx (r : Rectangle) : Z := int_sub (X (Max r)) (X (Min r)).
Definition Dy (r : Rectangle) : Z := int_sub (Y (Max r)) (Y (Min r)).

(** An in-memory image: its pixel bytes, stride and bounds. *)
Record RGBA := { Pix : list Z; Stride : Z; Bounds : Rectangle }.

End image.

(** ** Package gfx *)

(** The containers [Load] fills: a mesh with its vertices and its sets of
    texture coordinates, and an object with the fields [Load] assigns. *)

Module gfx.
Section Types.
Context {F : FloatOps}.

Record Vec3 := { vx : float32; vy : float32; vz : float32 }.

Record TexCoord := { tu : float32; tv : float32 }.

Record TexCoordSet := { Slice : list TexCoord }.

Record Mesh := { Vertices : list Vec3; TexCoords : list TexCoordSet }.

Definition NewMesh : Mesh := {| Vertices := []; TexCoords := [] |}.

Inductive TexWrap := Repeat | Clamp | BorderColor | Mirror.

Inductive TexFilter :=
  Nearest | Linear | NearestMipmapNearest | LinearMipmapNearest
| NearestMipmapLinear | LinearMipmapLinear.

Record Texture := {
  Source : option image.RGBA;
  TexBounds : image.Rectangle;
  WrapU : TexWrap;
  WrapV : TexWrap;
  MinFilter : TexFilter;
  MagFilter : TexFilter;
}.

Inductive FaceCullMode := BackFaceCulling | FrontFaceCulling | NoFaceCulling.

Inductive AlphaMode := NoAlpha | AlphaBlend | BinaryAlpha | AlphaToCoverage.

Record State := { FaceCulling : FaceCullMode; Alpha : AlphaMode }.

Record Shader := { ShaderName : string; GLSLVertex : string; GLSLFragment : string }.

Record Object := {
  ObjShader : option Shader;
  ObjState : State;
  Meshes : list Mesh;
  Textures : list Texture;
}.

End Types.
End gfx.

(** ** The quad emitter *)

Section Card.
Context {F : FloatOps}.

(** [appendCard], lines 115-122: the texture coordinates of the card's
    corners, [(u0, v0, u1, v1)]. *)
Definition cardUV (rect tex : image.Rectangle)
  : float32 * float32 * float32 * float32 :=
  let w := f32_of_int (image.Dx tex) in
  let h := f32_of_int (image.Dy tex) in
  let halfTexUnitX := f32_div (f32_of_int 1) w in
  let halfTexUnitY := f32_div (f32_of_int 1) w in
  let u0 := f32_add (f32_div (f32_of_int (image.X (image.Min rect))) w) halfTexUnitX in
  let u1 := f32_sub (f32_div (f32_of_int (image.X (image.Max rect))) w) halfTexUnitX in
  let v0 := f32_add (f32_div (f32_of_int (image.Y (image.Min rect))) h) halfTexUnitY in
  let v1 := f32_sub (f32_div (f32_of_int (image.Y (image.Max rect))) h) halfTexUnitY in
  (u0, v0, u1, v1).

(** The closure [addv]. *)
Definition addv (depth : float32) (m : gfx.Mesh) (x y : float32) : gfx.Mesh :=
  {| gfx.Vertices := gfx.Vertices m ++ [ {| gfx.vx := x; gfx.vy := depth; gfx.vz := y |} ];
     gfx.TexCoords := gfx.TexCoords m |}.

(** The closure [addt]: the first coordinate set is created on demand. *)
Definition addt (m : gfx.Mesh) (u v : float32) : gfx.Mesh :=
  let sets :=
    if decide (length (gfx.TexCoords m) = 0%nat)
    then [ {| gfx.Slice := [] |} ] else gfx.TexCoords m in
  match sets with
  | s :: rest =>
      {| gfx.Vertices := gfx.Vertices m;
         gfx.TexCoords :=
           {| gfx.Slice := gfx.Slice s ++ [ {| gfx.tu := u; gfx.tv := v |} ] |} :: rest |}
  | [] => m
  end.

Definition appendCard (m : gfx.Mesh) (l r b t depth : float32)
    (rect tex : image.Rectangle) : gfx.Mesh :=
  let '(u0, v0, u1, v1) := cardUV rect tex in
  (* Left triangle. *)
  let m := addv depth m l t in
  let m := addv depth m l b in
  let m := addv depth m r b in
  (* Right triangle. *)
  let m := addv depth m l t in
  let m := addv depth m r b in
  let m := addv depth m r t in
  (* Left triangle. *)
  let m := addt m u0 v0 in
  let m := addt m u0 v1 in
  let m := addt m u1 v1 in
  (* Right triangle. *)
  let m := addt m u0 v0 in
  let m := addt m u1 v1 in
  let m := addt m u1 v0 in
  m.

#[global] Arguments appendCard : simpl never.

(** The texture coordinates of a mesh: the slice of its first set. *)
Definition uv_channel (m : gfx.Mesh) : list gfx.TexCoord :=
  match gfx.TexCoords m with
  | s :: _ => gfx.Slice s
  | [] => []
  end.

(** The six corners and the six texture coordinates of a card, in the
    order [appendCard] emits them. *)
Definition card_vertices (l r b t depth : float32) : list gfx.Vec3 :=
  [ {| gfx.vx := l; gfx.vy := depth; gfx.vz := t |};
    {| gfx.vx := l; gfx.vy := depth; gfx.vz := b |};
    {| gfx.vx := r; gfx.vy := depth; gfx.vz := b |};
    {| gfx.vx := l; gfx.vy := depth; gfx.vz := t |};
    {| gfx.vx := r; gfx.vy := depth; gfx.vz := b |};
    {| gfx.vx := r; gfx.vy := depth; gfx.vz := t |} ].

Definition card_uvs (rect tex : image.Rectangle) : list gfx.TexCoord :=
  let '(u0, v0, u1, v1) := cardUV rect tex in
  [ {| gfx.tu := u0; gfx.tv := v0 |};
    {| gfx.tu := u0; gfx.tv := v1 |};
    {| gfx.tu := u1; gfx.tv := v1 |};
    {| gfx.tu := u0; gfx.tv := v0 |};
    {| gfx.tu := u1; gfx.tv := v1 |};
    {| gfx.tu := u1; gfx.tv := v0 |} ].

(** The inset the specification asks for: "shrunk on each edge by
    (1 / atlasDimension) in the corresponding axis", that is by the
    reciprocal of the atlas width on the horizontal edges and of the atlas
    height on the vertical ones. *)
Definition insetUV_spec (rect tex : image.Rectangle)
  : float32 * float32 * float32 * float32 :=
  let w := f32_of_int (image.Dx tex) in
  let h := f32_of_int (image.Dy tex) in
  let u0 := f32_add (f32_div (f32_of_int (image.X (image.Min rect))) w) (f32_div (f32_of_int 1) w) in
  let u1 := f32_sub (f32_div (f32_of_int (image.X (image.Max rect))) w) (f32_div (f32_of_int 1) w) in
  let v0 := f32_add (f32_div (f32_of_int (image.Y (image.Min rect))) h) (f32_div (f32_of_int 1) h) in
  let v1 := f32_sub (f32_div (f32_of_int (image.Y (image.Max rect))) h) (f32_div (f32_of_int 1) h) in
  (u0, v0, u1, v1).

End Card.

(** ** Package lmath *)

Module lmath.
Section Types.
Context {F : FloatOps}.

Record Vec3 := { vx : float64; vy : float64; vz : float64 }.

Inductive CoordSys :=
  CoordSysZUpRight | CoordSysYUpRight | CoordSysZUpLeft | CoordSysYUpLeft.

End Types.
End lmath.

(** The matrices of [lmath] as the package uses them: [Mat4_Mul a b] is
    [a.Mul(b)] and [TransformMat4 v m] is [v.TransformMat4(m)]. *)
Class Lmath {F : FloatOps} := {
  Mat4 : Type;
  Mat4Identity : Mat4;
  Mat4_Mul : Mat4 → Mat4 → Mat4;
  Mat4FromAxisAngle : lmath.Vec3 → float64 → lmath.CoordSys → Mat4;
  Mat4FromTranslation : lmath.Vec3 → Mat4;
  TransformMat4 : lmath.Vec3 → Mat4 → lmath.Vec3;
  Radians : float64 → float64;
}.

(** ** The map data model *)

(** The declarations of [Map], [Layer], [Tileset] and [Coord] are in files
    of the package that are not part of this development; the records
    below have the fields [Load] reads, with the meaning the
    specification gives them. *)

(** Modelled from the spec: the struct [Coord], a grid coordinate (x, y). *)
Abbreviation Coord := (Z * Z)%type (only parsing).

Module Tileset.
(** Modelled from the spec: the struct of [Tileset.Image], of which [Load]
    reads the file name [Source]. *)
Record image := { Source : string }.
(** Modelled from the spec: the struct [Tileset], "first-GID, tile
    width/height, margin, spacing, reference to one atlas image". *)
Record t := {
  Firstgid : Z;
  Width : Z;
  Height : Z;
  Margin : Z;
  Spacing : Z;
  Image : image;
}.
End Tileset.

Module Layer.
(** Modelled from the spec: the struct [Layer], "name, a mapping from grid
    coordinate (x, y) to a packed GID". *)
Record t := { Name : string; Tiles : gmap Coord Z }.
End Layer.

Module Map.
(** Modelled from the spec: the struct [Map], "grid width/height (tiles),
    tile width/height (pixels), ordered sequence of Layers, ordered sequence
    of Tilesets". *)
Record t := {
  Width : Z;
  Height : Z;
  TileWidth : Z;
  TileHeight : Z;
  Layers : list Layer.t;
  Tilesets : list Tileset.t;
}.
End Map.

(** What [Load] uses from the rest of the package and from
    [path/filepath]: the three flag constants, the methods [FindTileset]
    (a nil result is [None]) and [TilesetRect], and [filepath.Base]. *)
Class Tmx := {
  FLIPPED_HORIZONTALLY_FLAG : Z;
  FLIPPED_VERTICALLY_FLAG : Z;
  FLIPPED_DIAGONALLY_FLAG : Z;
  FindTileset : Map.t → Z → option Tileset.t;
  TilesetRect : Map.t → Tileset.t → Z → Z → bool → Z → image.Rectangle;
  filepath_Base : string → string;
}.

(** ** Loops in the option monad *)

(** [for_each body xs s]: run [body] on the elements of [xs] in order,
    threading the state; the first failure aborts. *)
Fixpoint for_each {A S : Type} (body : S → A → option S) (xs : list A) (s : S)
  : option S :=
  match xs with
  | [] => Some s
  | x :: xs => s' ← body s x; for_each body xs s'
  end.

(** ** The tile compiler *)

Section Compiler.
Context {F : FloatOps} {L : Lmath} {T : Tmx}.

Definition glslVert : string := "
#version 120

attribute vec3 Vertex;
attribute vec2 TexCoord0;

uniform mat4 MVP;

varying vec2 tc0;

void main()
{
	tc0 = TexCoord0;
	gl_Position = MVP * vec4(Vertex, 1.0);
}
".

Definition glslFrag : string := "
#version 120

varying vec2 tc0;

uniform sampler2D Texture0;
uniform bool BinaryAlpha;

void main()
{
	gl_FragColor = texture2D(Texture0, tc0);
	if(BinaryAlpha && gl_FragColor.a < 0.5) {
		discard;
	}
}
".

(** [init] *)

Definition Shader : gfx.Shader :=
  {| gfx.ShaderName := "tmx.Shader";
     gfx.GLSLVertex := glslVert;
     gfx.GLSLFragment := glslFrag |}.

Definition axis (x y z : Z) : lmath.Vec3 :=
  {| lmath.vx := f64_of_int x; lmath.vy := f64_of_int y; lmath.vz := f64_of_int z |}.

Definition cw90 : Mat4 :=
  Mat4FromAxisAngle (axis 0 1 0) (Radians (f64_of_int 90)) lmath.CoordSysZUpRight.

Definition cwn90 : Mat4 :=
  Mat4FromAxisAngle (axis 0 1 0) (Radians (f64_of_int (-90))) lmath.CoordSysZUpRight.

Definition horizFlip : Mat4 :=
  Mat4FromAxisAngle (axis 0 0 1) (Radians (f64_of_int 180)) lmath.CoordSysZUpRight.

Definition vertFlip : Mat4 :=
  Mat4FromAxisAngle (axis 1 0 0) (Radians (f64_of_int 180)) lmath.CoordSysZUpRight.

(** [Config] *)

Record Config := { LayerOffset : float64; TileOffset : float64 }.

(** The configuration [Load] uses for a nil [c]: the constants 0.001
    and 0.000001 are the floats nearest to 1/1000 and 1/1000000. *)
Definition default_config : Config :=
  {| LayerOffset := f64_div (f64_of_int 1) (f64_of_int 1000);
     TileOffset := f64_div (f64_of_int 1) (f64_of_int 1000000) |}.

(** [Load], lines 203-221: the object of a tileset image. *)
Definition new_object (rgba : image.RGBA) : gfx.Object :=
  let t :=
    {| gfx.Source := Some rgba;
       gfx.TexBounds := image.Bounds rgba;
       gfx.WrapU := gfx.Clamp;
       gfx.WrapV := gfx.Clamp;
       gfx.MinFilter := gfx.LinearMipmapLinear;
       gfx.MagFilter := gfx.Linear |} in
  {| gfx.ObjShader := Some Shader;
     gfx.Meshes := [gfx.NewMesh];
     gfx.Textures := [t];
     gfx.ObjState :=
       {| gfx.FaceCulling := gfx.NoFaceCulling; gfx.Alpha := gfx.AlphaToCoverage |} |}.

(** [Load], lines 239-262: the flips of a tile. *)
Definition diagFlipped (gid : Z) : bool := bool_decide (0 < Z.land gid FLIPPED_DIAGONALLY_FLAG).
Definition horizFlipped (gid : Z) : bool := bool_decide (0 < Z.land gid FLIPPED_HORIZONTALLY_FLAG).
Definition vertFlipped (gid : Z) : bool := bool_decide (0 < Z.land gid FLIPPED_VERTICALLY_FLAG).

Definition flip_of (gid : Z) : Mat4 :=
  let flip := Mat4Identity in
  if diagFlipped gid then
    if horizFlipped gid && vertFlipped gid then
      let flip := Mat4_Mul cw90 flip in
      Mat4_Mul horizFlip flip
    else if horizFlipped gid then
      Mat4_Mul cw90 flip
    else if vertFlipped gid then
      Mat4_Mul cwn90 flip
    else
      let flip := Mat4_Mul horizFlip flip in
      Mat4_Mul cw90 flip
  else
    let flip := if horizFlipped gid then Mat4_Mul horizFlip flip else flip in
    let flip := if vertFlipped gid then Mat4_Mul vertFlip flip else flip in
    flip.

(** [Load], lines 225-226. *)
Definition halfWidth (tileset : Tileset.t) : float32 :=
  f32_div (f32_of_int (Tileset.Width tileset)) (f32_of_int 2).
Definition halfHeight (tileset : Tileset.t) : float32 :=
  f32_div (f32_of_int (Tileset.Height tileset)) (f32_of_int 2).

(** [Load], lines 265-269: where the card goes. *)
Definition move_of (m : Map.t) (tileset : Tileset.t) (x y : Z)
    (layerOffset tileOffset : float64) : lmath.Vec3 :=
  {| lmath.vx :=
       f64_add (f64_of_int (int_mul x (Map.TileWidth m))) (f64_of_f32 (halfWidth tileset));
     lmath.vy := f64_add layerOffset tileOffset;
     lmath.vz :=
       f64_sub (f64_of_int (int_mul (int_sub (Map.Height m) y) (Map.TileHeight m)))
               (f64_of_f32 (halfHeight tileset)) |}.

(** [Load], lines 277-278: one vertex through the transformation. *)
Definition transform_vertex (trans : Mat4) (v : gfx.Vec3) : gfx.Vec3 :=
  let vt :=
    TransformMat4
      {| lmath.vx := f64_of_f32 (gfx.vx v);
         lmath.vy := f64_of_f32 (gfx.vy v);
         lmath.vz := f64_of_f32 (gfx.vz v) |} trans in
  {| gfx.vx := f32_of_f64 (lmath.vx vt);
     gfx.vy := f32_of_f64 (lmath.vy vt);
     gfx.vz := f32_of_f64 (lmath.vz vt) |}.

(** [Load], lines 275-279: the loop over [verts[cardStart:cardEnd]]
    that writes [verts[cardStart+i]]. *)
Definition transform_card (trans : Mat4) (cardStart cardEnd : nat)
    (verts : list gfx.Vec3) : list gfx.Vec3 :=
  foldl (λ vs iv, <[(cardStart + iv.1)%nat := transform_vertex trans iv.2]> vs)
        verts
        (imap pair (take (cardEnd - cardStart) (drop cardStart verts))).

(** The state of the loops over one layer. *)
Record LayerState := {
  texObjects : gmap string gfx.Object;
  tileOffset : float64;
}.

(** [Load], lines 178-179: a fresh map of objects and a zero offset. *)
Definition layer_init : LayerState :=
  {| texObjects := ∅; tileOffset := f64_of_int 0 |}.

(** [Load], lines 183-279: the body of the inner loop. *)
Definition cell (m : Map.t) (c : Config) (tsImages : gmap string image.RGBA)
    (layer : Layer.t) (layerOffset : float64) (x y : Z) (st : LayerState)
  : option LayerState :=
  match Layer.Tiles layer !! (x, y) with
  | None => Some st
  | Some gid =>
    tileset ← FindTileset m gid;
    let tsImage := filepath_Base (Tileset.Source (Tileset.Image tileset)) in
    match tsImages !! tsImage with
    | None => Some st
    | Some rgba =>
      let '(obj, objs) :=
        match texObjects st !! tsImage with
        | Some obj => (obj, texObjects st)
        | None =>
            let obj := new_object rgba in
            (obj, <[tsImage := obj]> (texObjects st))
        end in
      let r := TilesetRect m tileset (image.Dx (image.Bounds rgba))
                 (image.Dy (image.Bounds rgba)) true gid in
      let halfWidth := halfWidth tileset in
      let halfHeight := halfHeight tileset in
      match gfx.Meshes obj with
      | [] => None
      | mesh :: meshes =>
        let cardStart := length (gfx.Vertices mesh) in
        let mesh :=
          appendCard mesh (f32_neg halfWidth) halfWidth (f32_neg halfHeight)
            halfHeight (f32_of_int 0) r (image.Bounds rgba) in
        let cardEnd := length (gfx.Vertices mesh) in
        let flip := flip_of gid in
        let move :=
          Mat4FromTranslation (move_of m tileset x y layerOffset (tileOffset st)) in
        let tileOffset := f64_sub (tileOffset st) (TileOffset c) in
        let trans := Mat4_Mul flip move in
        let verts := transform_card trans cardStart cardEnd (gfx.Vertices mesh) in
        let mesh := {| gfx.Vertices := verts; gfx.TexCoords := gfx.TexCoords mesh |} in
        let obj :=
          {| gfx.ObjShader := gfx.ObjShader obj;
             gfx.ObjState := gfx.ObjState obj;
             gfx.Meshes := mesh :: meshes;
             gfx.Textures := gfx.Textures obj |} in
        Some {| texObjects := <[tsImage := obj]> objs; tileOffset := tileOffset |}
      end
    end
  end.

(** [Load], lines 178-282: one layer, [x] outside and [y] inside. *)
Definition compile_layer (m : Map.t) (c : Config)
    (tsImages : gmap string image.RGBA) (layer : Layer.t) (layerOffset : float64)
  : option LayerState :=
  for_each
    (λ st x,
       for_each (λ st y, cell m c tsImages layer layerOffset x y st)
                (seqZ 0 (Map.Height m)) st)
    (seqZ 0 (Map.Width m))
    layer_init.

(** The state of the loop over the layers. *)
Record LoadState := {
  layers : gmap string (gmap string gfx.Object);
  layerOffset : float64;
}.

(** [Load], lines 173-174. *)
Definition load_init : LoadState :=
  {| layers := ∅; layerOffset := f64_of_int 0 |}.

(** [Load], lines 176-288: the body of the outer loop. *)
Definition layer_step (m : Map.t) (c : Config)
    (tsImages : gmap string image.RGBA) (s : LoadState) (layer : Layer.t)
  : option LoadState :=
  st ← compile_layer m c tsImages layer (layerOffset s);
  Some {| layers := <[Layer.Name layer := texObjects st]> (layers s);
          layerOffset := f64_sub (layerOffset s) (LayerOffset c) |}.

Definition Load (m : Map.t) (c : option Config) (tsImages : gmap string image.RGBA)
  : option (gmap string (gmap string gfx.Object)) :=
  let c := default default_config c in
  s ← for_each (layer_step m c tsImages) (Map.Layers m) load_init;
  Some (layers s).

(** *** Vocabulary of the specification *)

(** The primitives of the flip table. *)
Inductive primitive := Rot90 | RotNeg90 | HorizontalMirror | VerticalMirror.

(** The rotation by a number of degrees about an axis, in the coordinate
    system of the package. *)
Definition rotation (ax ay az degrees : Z) : Mat4 :=
  Mat4FromAxisAngle
    {| lmath.vx := f64_of_int ax; lmath.vy := f64_of_int ay; lmath.vz := f64_of_int az |}
    (Radians (f64_of_int degrees)) lmath.CoordSysZUpRight.

(** The primitives as the specification names them: "two 90° rotations
    about the vertical axis, horizontal mirror, vertical mirror".  The
    vertical axis is the second one (the translation of a tile has
    "layerOffset + tileOffset" there), and a card lies flat on the two
    horizontal axes.  The flips "re-orient the face" of a card: the mirror of
    a card is the half turn that negates one of its two coordinates, about
    the second horizontal axis for the horizontal mirror and about the first
    for the vertical mirror. *)
Definition primitive_matrix (p : primitive) : Mat4 :=
  match p with
  | Rot90 => rotation 0 1 0 90
  | RotNeg90 => rotation 0 1 0 (-90)
  | HorizontalMirror => rotation 0 0 1 180
  | VerticalMirror => rotation 1 0 0 180
  end.

(** The flags of a GID as the specification lays them out: "bit 31 =
    vertical flip, bit 30 = horizontal flip, bit 29 = diagonal flip". *)
Definition diagonal_bit (gid : Z) : bool := Z.testbit gid 29.
Definition horizontal_bit (gid : Z) : bool := Z.testbit gid 30.
Definition vertical_bit (gid : Z) : bool := Z.testbit gid 31.

(** "each is applied as newTransform = primitive * accumulated": the
    primitives are taken from left to right, starting from the identity. *)
Definition compose (ps : list primitive) : Mat4 :=
  foldl (λ accumulated p, Mat4_Mul (primitive_matrix p) accumulated) Mat4Identity ps.

(** The case table of the specification, rows [(d, h, v)]. *)
Definition flip_table (d h v : bool) : list primitive :=
  match d, h, v with
  | false, false, false => []
  | false, true, false => [HorizontalMirror]
  | false, false, true => [VerticalMirror]
  | false, true, true => [HorizontalMirror; VerticalMirror]
  | true, false, false => [HorizontalMirror; Rot90]
  | true, true, false => [Rot90]
  | true, false, true => [RotNeg90]
  | true, true, true => [Rot90; HorizontalMirror]
  end.

(** The translation as the specification words it, with the tile size
    of the map: "x * map tile width + map tile width / 2" and "(map height
    in tiles - y) * map tile height - map tile height / 2". *)
Definition move_spec (m : Map.t) (x y : Z) (layerOffset tileOffset : float64)
  : lmath.Vec3 :=
  {| lmath.vx :=
       f64_add (f64_of_int (int_mul x (Map.TileWidth m)))
               (f64_of_f32 (f32_div (f32_of_int (Map.TileWidth m)) (f32_of_int 2)));
     lmath.vy := f64_add layerOffset tileOffset;
     lmath.vz :=
       f64_sub (f64_of_int (int_mul (int_sub (Map.Height m) y) (Map.TileHeight m)))
               (f64_of_f32 (f32_div (f32_of_int (Map.TileHeight m)) (f32_of_int 2))) |}.

(** The cells of a [w] by [h] grid in the order the two loops visit
    them: column after column. *)
Definition raster (w h : Z) : list Coord :=
  x ← seqZ 0 w; y ← seqZ 0 h; [(x, y)].

(** The loop body on a list of cells. *)
Definition run_cells (m : Map.t) (c : Config) (tsImages : gmap string image.RGBA)
    (layer : Layer.t) (layerOffset : float64) (cells : list Coord) (st : LayerState)
  : option LayerState :=
  for_each (λ st xy, cell m c tsImages layer layerOffset xy.1 xy.2 st) cells st.

(** The loop body on a list of layers. *)
Definition run_layers (m : Map.t) (c : Config) (tsImages : gmap string image.RGBA)
    (ls : list Layer.t) (s : LoadState) : option LoadState :=
  for_each (layer_step m c tsImages) ls s.

(** An offset after [n] subtractions of [step]. *)
Definition offset_after (step : float64) (n : nat) (start : float64) : float64 :=
  Nat.iter n (λ t, f64_sub t step) start.

(** The batch a cell's tile goes to: the base name of the image of the
    tileset that owns the tile, when that image was supplied. *)
Definition cell_key (m : Map.t) (tsImages : gmap string image.RGBA)
    (layer : Layer.t) (xy : Coord) : option string :=
  gid ← Layer.Tiles layer !! xy;
  tileset ← FindTileset m gid;
  let tsImage := filepath_Base (Tileset.Source (Tileset.Image tileset)) in
  if tsImages !! tsImage is Some _ then Some tsImage else None.

Definition placed (m : Map.t) (tsImages : gmap string image.RGBA)
    (layer : Layer.t) (xy : Coord) : bool :=
  bool_decide (is_Some (cell_key m tsImages layer xy)).

(** The cells of a list whose tile goes to batch [k]. *)
Definition cells_of_batch (m : Map.t) (tsImages : gmap string image.RGBA)
    (layer : Layer.t) (k : string) (cells : list Coord) : list Coord :=
  filter (λ xy, cell_key m tsImages layer xy = Some k) cells.

(** No cell of the list makes [Load] dereference a nil tileset. *)
Definition tilesets_found (m : Map.t) (layer : Layer.t) (cells : list Coord) : Prop :=
  ∀ xy gid, xy ∈ cells → Layer.Tiles layer !! xy = Some gid →
            is_Some (FindTileset m gid).

(** The object of batch [k] before a tile is added to it: the one in
    the map, or a new one. *)
Definition batch_object (objs : gmap string gfx.Object) (k : string)
    (rgba : image.RGBA) : gfx.Object :=
  default (new_object rgba) (objs !! k).

(** The six vertices of a tile once it is oriented and moved to its
    cell. *)
Definition card_in_world (m : Map.t) (tileset : Tileset.t) (gid x y : Z)
    (layerOffset tileOffset : float64) : list gfx.Vec3 :=
  transform_vertex
    (Mat4_Mul (flip_of gid)
       (Mat4FromTranslation (move_of m tileset x y layerOffset tileOffset)))
    <$> card_vertices (f32_neg (halfWidth tileset)) (halfWidth tileset)
          (f32_neg (halfHeight tileset)) (halfHeight tileset) (f32_of_int 0).

(** The texture coordinates of a tile. *)
Definition card_uvs_of (m : Map.t) (tileset : Tileset.t) (gid : Z)
    (rgba : image.RGBA) : list gfx.TexCoord :=
  card_uvs
    (TilesetRect m tileset (image.Dx (image.Bounds rgba))
       (image.Dy (image.Bounds rgba)) true gid)
    (image.Bounds rgba).

(** The mesh of batch [k], empty for a batch that is absent. *)
Definition batch_mesh (objs : gmap string gfx.Object) (k : string) : gfx.Mesh :=
  match objs !! k with
  | Some obj => default gfx.NewMesh (head (gfx.Meshes obj))
  | None => gfx.NewMesh
  end.

(** The number of vertices of a batch, 0 for a batch that is absent. *)
Definition batch_vertices (objs : gmap string gfx.Object) (k : string) : nat :=
  match objs !! k with
  | Some obj =>
      match gfx.Meshes obj with
      | mesh :: _ => length (gfx.Vertices mesh)
      | [] => 0
      end
  | None => 0
  end.

(** Every object of a layer has exactly one mesh. *)
Definition one_mesh (objs : gmap string gfx.Object) : Prop :=
  ∀ k obj, objs !! k = Some obj → ∃ mesh, gfx.Meshes obj = [mesh].

(** The vertical coordinate [Load] gives to a tile that it places right
    after the cells [visited] of a layer at [layerOffset]. *)
Definition vertical_after (m : Map.t) (c : Config)
    (tsImages : gmap string image.RGBA) (layer : Layer.t) (layerOffset : float64)
    (visited : list Coord) : option float64 :=
  st ← run_cells m c tsImages layer layerOffset visited layer_init;
  Some (f64_add layerOffset (tileOffset st)).

(** The vertical offset of the layer that comes after the layers
    [earlier]. *)
Definition base_after (m : Map.t) (c : Config)
    (tsImages : gmap string image.RGBA) (earlier : list Layer.t) : option float64 :=
  s ← run_layers m c tsImages earlier load_init;
  Some (layerOffset s).

End Compiler.

(** ** Objects: point lists *)

(** The functions of Go's [strings] and [strconv] that [toPoints] calls, for
    text whose white space is ASCII (Go's [TrimSpace] also removes the
    Unicode spaces, which are encoded on several bytes). *)

Module strings.

(** [strings.Split(s, sep)] for a separator of one byte: the pieces
    between the separators, [Count(s, sep) + 1] of them. *)
Fixpoint Split (s : string) (sep : ascii) : list string :=
  match s with
  | EmptyString => [EmptyString]
  | String c rest =>
      if Ascii.eqb c sep then EmptyString :: Split rest sep
      else
        match Split rest sep with
        | piece :: pieces => String c piece :: pieces
        | [] => [String c EmptyString]
        end
  end.

Definition isSpace (c : ascii) : bool :=
  let n := nat_of_ascii c in
  bool_decide (n = 9 ∨ n = 10 ∨ n = 11 ∨ n = 12 ∨ n = 13 ∨ n = 32)%nat.

Fixpoint TrimLeft (s : string) : string :=
  match s with
  | String c rest => if isSpace c then TrimLeft rest else s
  | EmptyString => EmptyString
  end.

Fixpoint TrimRight (s : string) : string :=
  match s with
  | String c rest =>
      match TrimRight rest with
      | EmptyString => if isSpace c then EmptyString else String c EmptyString
      | rest' => String c rest'
      end
  | EmptyString => EmptyString
  end.

Definition TrimSpace (s : string) : string := TrimRight (TrimLeft s).

End strings.

Module strconv.

Definition digit (c : ascii) : option Z :=
  let n := Z.of_nat (nat_of_ascii c) in
  if decide (48 <= n <= 57) then Some (n - 48) else None.

(** The value of a string of decimal digits read after [acc]. *)
Fixpoint digits (acc : Z) (s : string) : option Z :=
  match s with
  | EmptyString => Some acc
  | String c rest => d ← digit c; digits (10 * acc + d) rest
  end.

(** An optional sign and at least one digit. *)
Definition parse (s : string) : option Z :=
  match s with
  | EmptyString => None
  | String "-" (String _ _ as rest) => Z.opp <$> digits 0 rest
  | String "+" (String _ _ as rest) => digits 0 rest
  | _ => digits 0 s
  end.

(** [strconv.Atoi(s)]: the value and whether an error is returned.  A
    syntax error comes with 0, a range error with the nearest [int]. *)
Definition Atoi (s : string) : Z * bool :=
  match parse s with
  | None => (0, true)
  | Some n =>
      if decide (n < - 2 ^ 63) then (- 2 ^ 63, true)
      else if decide (2 ^ 63 - 1 < n) then (2 ^ 63 - 1, true)
      else (n, false)
  end.

End strconv.

(** The file of objects *)

Record Point := { PointX : Z; PointY : Z }.

Record Ellipse := { EllipseX : Z; EllipseY : Z; EllipseWidth : Z; EllipseHeight : Z }.

Record Polygon := { PolygonX : Z; PolygonY : Z; PolygonPoints : list Point }.

Record Polyline := { PolylineX : Z; PolylineY : Z; PolylinePoints : list Point }.

Record xmlPolyset := { Data : string }.

(** The body of the loop of [toPoints]. *)
Definition toPoints_step (points : list Point) (pair : string) : list Point :=
  let xy := strings.Split (strings.TrimSpace pair) "," in
  match xy with
  | [xy0; xy1] =>
      let x := (strconv.Atoi (strings.TrimSpace xy0)).1 in
      let y := (strconv.Atoi (strings.TrimSpace xy1)).1 in
      points ++ [ {| PointX := x; PointY := y |} ]
  | _ => points
  end.

Definition toPoints (x : xmlPolyset) : list Point :=
  let pairs := strings.Split (Data x) " " in
  foldl toPoints_step [] pairs.

(** The point of one pair of the list, if the pair gives one: a pair gives
    a point when it has exactly two fields between commas, whatever the
    fields are. *)
Definition point_of_pair (pair : string) : option Point :=
  match strings.Split (strings.TrimSpace pair) "," with
  | [xy0; xy1] =>
      Some {| PointX := (strconv.Atoi (strings.TrimSpace xy0)).1;
              PointY := (strconv.Atoi (strings.TrimSpace xy1)).1 |}
  | _ => None
  end.

(** The point list as the specification words it: "malformed polygon or
    polyline point lists (non-numeric coordinates) are tolerated by silently
    dropping the offending point", the other points being kept. *)
Definition well_formed_point (pair : string) : option Point :=
  match strings.Split (strings.TrimSpace pair) "," with
  | [xy0; xy1] =>
      let '(x, xerr) := strconv.Atoi (strings.TrimSpace xy0) in
      let '(y, yerr) := strconv.Atoi (strings.TrimSpace xy1) in
      if xerr || yerr then None else Some {| PointX := x; PointY := y |}
  | _ => None
  end.

Definition toPoints_spec (x : xmlPolyset) : list Point :=
  omap well_formed_point (strings.Split (Data x) " ").

(** The number of occurrences of a byte in a string. *)
Definition count_byte (c : ascii) (s : string) : nat :=
  length (filter (λ a, a = c) (list_ascii_of_string s)).

(** The fields of [xmlObject] that [toValue] reads; [Ellipse] is a pointer. *)
Record xmlObject := {
  ObjX : Z;
  ObjY : Z;
  ObjWidth : Z;
  ObjHeight : Z;
  ObjEllipse : option string;
  ObjPolygon : xmlPolyset;
  ObjPolyline : xmlPolyset;
}.

(** The dynamic type of [Object.Value]. *)
Inductive Value :=
| ValueEllipse (e : Ellipse)
| ValuePolygon (p : Polygon)
| ValuePolyline (p : Polyline)
| ValueNil.

Definition toValue (x : xmlObject) : Value :=
  if ObjEllipse x is Some _ then
    ValueEllipse {| EllipseX := ObjX x; EllipseY := ObjY x;
                    EllipseWidth := ObjWidth x; EllipseHeight := ObjHeight x |}
  else if decide (0 < String.length (Data (ObjPolygon x)))%nat then
    ValuePolygon {| PolygonX := ObjX x; PolygonY := ObjY x;
                    PolygonPoints := toPoints (ObjPolygon x) |}
  else if decide (0 < String.length (Data (ObjPolyline x)))%nat then
    ValuePolyline {| PolylineX := ObjX x; PolylineY := ObjY x;
                     PolylinePoints := toPoints (ObjPolyline x) |}
  else ValueNil.

(** ** Reference implementations of the interfaces *)

(** These run the compiler on concrete maps.  [Spec.tmx] follows the
    specification for the parts of the package that are declared elsewhere;
    [Exact.lmath] is a small matrix library over exact arithmetic. *)

Module Spec.

(** Modelled from the spec: the flag constants, declared in a file of the
    package that is not part of this development.  "bit 31 = vertical
    flip, bit 30 = horizontal flip, bit 29 = diagonal flip". *)
Definition FLIPPED_VERTICALLY_FLAG : Z := 2 ^ 31.
Definition FLIPPED_HORIZONTALLY_FLAG : Z := 2 ^ 30.
Definition FLIPPED_DIAGONALLY_FLAG : Z := 2 ^ 29.

(** Modelled from the spec: the base index of a packed GID, "bits 0-28". *)
Definition gid_base (gid : Z) : Z := Z.land gid (2 ^ 29 - 1).

(** Modelled from the spec: the method [FindTileset], declared in a file of
    the package that is not part of this development.  "the tileset
    owning a GID is the one with the largest first-GID that is at most the
    GID's base index". *)
Definition FindTileset (m : Map.t) (gid : Z) : option Tileset.t :=
  foldl (λ best ts,
           if decide (Tileset.Firstgid ts <= gid_base gid) then
             match best with
             | Some b =>
                 if decide (Tileset.Firstgid b < Tileset.Firstgid ts)
                 then Some ts else best
             | None => Some ts
             end
           else best)
        None (Map.Tilesets m).

(** Modelled from the spec: the method [TilesetRect], declared in a file of
    the package that is not part of this development.  "columns-per-row =
    floor((atlasWidth - 2*margin + spacing) / (tileWidth + spacing)); row =
    index / columnsPerRow, col = index % columnsPerRow; rect origin =
    margin + col*(tileWidth+spacing), margin + row*(tileHeight+spacing);
    size = tileWidth x tileHeight". *)
Definition TilesetRect (m : Map.t) (ts : Tileset.t) (width height : Z)
    (spacing : bool) (gid : Z) : image.Rectangle :=
  let index := gid_base gid - Tileset.Firstgid ts in
  let columns :=
    (width - 2 * Tileset.Margin ts + Tileset.Spacing ts)
      `div` (Tileset.Width ts + Tileset.Spacing ts) in
  let row := index `quot` columns in
  let col := index `rem` columns in
  let x0 := Tileset.Margin ts + col * (Tileset.Width ts + Tileset.Spacing ts) in
  let y0 := Tileset.Margin ts + row * (Tileset.Height ts + Tileset.Spacing ts) in
  image.Rect x0 y0 (x0 + Tileset.Width ts) (y0 + Tileset.Height ts).

(** [filepath.Base] for slash-separated paths: trailing slashes are
    dropped and the last element is returned; the empty path is ["."] and a
    path of slashes is ["/"]. *)
Fixpoint last_element (cur : string) (s : string) : string :=
  match s with
  | EmptyString => cur
  | String c rest =>
      if Ascii.eqb c "/" then
        (* a separator ends an element only when another one follows *)
        if forallb (Ascii.eqb "/") (list_ascii_of_string rest)
        then cur else last_element EmptyString rest
      else last_element (cur +:+ String c EmptyString) rest
  end.

Definition Base (path : string) : string :=
  match path with
  | EmptyString => "."
  | _ =>
      match last_element EmptyString path with
      | EmptyString => "/"
      | e => e
      end
  end.

Definition tmx : Tmx :=
  Build_Tmx FLIPPED_HORIZONTALLY_FLAG FLIPPED_VERTICALLY_FLAG
    FLIPPED_DIAGONALLY_FLAG FindTileset TilesetRect Base.

End Spec.

Module Exact.

(** A 4x4 matrix is the list of its rows; vectors are rows and are
    multiplied from the left. *)
Definition Mat4 : Type := list (list Q).

Definition dot (u v : list Q) : Q :=
  foldr Qplus (0%Q) (zip_with Qmult u v).

Definition column (j : nat) (m : Mat4) : list Q :=
  (λ row, default (0%Q) (row !! j)) <$> m.

Definition row_mul (u : list Q) (m : Mat4) : list Q :=
  (λ j, Qred (dot u (column j m))) <$> seq 0 4.

Definition Mul (a b : Mat4) : Mat4 := (λ row, row_mul row b) <$> a.

Definition Identity : Mat4 :=
  [ [1; 0; 0; 0]; [0; 1; 0; 0]; [0; 0; 1; 0]; [0; 0; 0; 1] ]%Q.

Definition FromTranslation (t : lmath.Vec3 (F := exact_floats)) : Mat4 :=
  [ [1; 0; 0; 0]; [0; 1; 0; 0]; [0; 0; 1; 0];
    [lmath.vx t; lmath.vy t; lmath.vz t; 1] ]%Q.

(** Angles are measured in quarter turns, so that the sine and cosine of
    the rotations [Load] uses are rational; a fraction of a quarter turn is
    dropped. *)
Definition Radians (degrees : Q) : Q := (degrees / 90)%Q.

Definition cosq (a : Q) : Q :=
  inject_Z (match Qfloor a `mod` 4 with 0 => 1 | 2 => -1 | _ => 0 end).
Definition sinq (a : Q) : Q :=
  inject_Z (match Qfloor a `mod` 4 with 1 => 1 | 3 => -1 | _ => 0 end).

Definition left_handed (cs : lmath.CoordSys) : bool :=
  match cs with
  | lmath.CoordSysZUpLeft | lmath.CoordSysYUpLeft => true
  | _ => false
  end.

Definition FromAxisAngle (a : lmath.Vec3 (F := exact_floats)) (angle : Q)
    (cs : lmath.CoordSys) : Mat4 :=
  let angle := if left_handed cs then Qopp angle else angle in
  let s := sinq angle in
  let c := cosq angle in
  let t := (1 - c)%Q in
  let '(a0, a1, a2) := (lmath.vx a, lmath.vy a, lmath.vz a) in
  [ [t * a0 * a0 + c;      t * a0 * a1 + s * a2; t * a0 * a2 - s * a1; 0];
    [t * a1 * a0 - s * a2; t * a1 * a1 + c;      t * a1 * a2 + s * a0; 0];
    [t * a2 * a0 + s * a1; t * a2 * a1 - s * a0; t * a2 * a2 + c;      0];
    [0; 0; 0; 1] ]%Q.

Definition Transform (v : lmath.Vec3 (F := exact_floats)) (m : Mat4)
  : lmath.Vec3 (F := exact_floats) :=
  let r := row_mul [lmath.vx v; lmath.vy v; lmath.vz v; 1%Q] m in
  @lmath.Build_Vec3 exact_floats
    (default (0%Q) (r !! 0%nat))
    (default (0%Q) (r !! 1%nat))
    (default (0%Q) (r !! 2%nat)).

Definition lmath : Lmath (F := exact_floats) :=
  Build_Lmath exact_floats Mat4 Identity Mul FromAxisAngle FromTranslation
    Transform Radians.

End Exact.

Module Demo.
(** The end-to-end example of the specification: a 2x1 map of 32x32
    tiles, one layer "ground" with cell (0,0) = GID 1, one tileset with
    first GID 1 on a 64x32 atlas. *)
Definition tiles_png : image.RGBA :=
  {| image.Pix := []; image.Stride := 256; image.Bounds := image.Rect 0 0 64 32 |}.

Definition tileset : Tileset.t :=
  {| Tileset.Firstgid := 1; Tileset.Width := 32; Tileset.Height := 32;
     Tileset.Margin := 0; Tileset.Spacing := 0;
     Tileset.Image := {| Tileset.Source := "img/tiles.png" |} |}.

Definition ground : Layer.t :=
  {| Layer.Name := "ground"; Layer.Tiles := {[ (0, 0) := 1 ]} |}.

Definition map : Map.t :=
  {| Map.Width := 2; Map.Height := 1; Map.TileWidth := 32; Map.TileHeight := 32;
     Map.Layers := [ground]; Map.Tilesets := [tileset] |}.

Definition images : gmap string image.RGBA := {[ "tiles.png" := tiles_png ]}.

(** The same map with a tileset of 64x64 tiles on a 128x64 atlas: the
    tiles are larger than the cells of the map. *)
Definition big_png : image.RGBA :=
  {| image.Pix := []; image.Stride := 512; image.Bounds := image.Rect 0 0 128 64 |}.

Definition big_tileset : Tileset.t :=
  {| Tileset.Firstgid := 1; Tileset.Width := 64; Tileset.Height := 64;
     Tileset.Margin := 0; Tileset.Spacing := 0;
     Tileset.Image := {| Tileset.Source := "big.png" |} |}.

Definition big_map : Map.t :=
  {| Map.Width := 2; Map.Height := 1; Map.TileWidth := 32; Map.TileHeight := 32;
     Map.Layers := [ground]; Map.Tilesets := [big_tileset] |}.

Definition big_images : gmap string image.RGBA := {[ "big.png" := big_png ]}.

(** Two layers of the same name, the first with a tile in each cell. *)
Definition ground_full : Layer.t :=
  {| Layer.Name := "ground"; Layer.Tiles := {[ (0, 0) := 2; (1, 0) := 1 ]} |}.

Definition two_layers : Map.t :=
  {| Map.Width := 2; Map.Height := 1; Map.TileWidth := 32; Map.TileHeight := 32;
     Map.Layers := [ground_full; ground]; Map.Tilesets := [tileset] |}.

(** Two tilesets, of which only the first has its image in [images]. *)
Definition other_tileset : Tileset.t :=
  {| Tileset.Firstgid := 3; Tileset.Width := 32; Tileset.Height := 32;
     Tileset.Margin := 0; Tileset.Spacing := 0;
     Tileset.Image := {| Tileset.Source := "other.png" |} |}.

Definition mixed : Layer.t :=
  {| Layer.Name := "mixed"; Layer.Tiles := {[ (0, 0) := 1; (1, 0) := 3 ]} |}.

Definition two_tilesets : Map.t :=
  {| Map.Width := 2; Map.Height := 1; Map.TileWidth := 32; Map.TileHeight := 32;
     Map.Layers := [mixed]; Map.Tilesets := [tileset; other_tileset] |}.

(** The layer "ground" with one more tile, outside the 2x1 grid. *)
Definition ground_far : Layer.t :=
  {| Layer.Name := "ground"; Layer.Tiles := {[ (0, 0) := 1; (7, 7) := 2 ]} |}.

(** A configuration with both offsets 0. *)
Definition flat : Config (F := exact_floats) := @Build_Config exact_floats 0%Q 0%Q.

(** A configuration with offsets 1/1024 and 1/1048576. *)
Definition config : Config (F := exact_floats) :=
  @Build_Config exact_floats (1 # 1024)%Q (1 # 1048576)%Q.
End Demo.


(** ** Vocabulary for the further properties *)

(** The text of a point list as a TMX file has it: the points separated by
    one space, the two coordinates of a point separated by a comma, and a
    coordinate in decimal digits, after a minus sign when it is negative. *)
Definition render_int (z : Z) : string := NilZero.string_of_int (Z.to_int z).

Definition render_point (p : Point) : string :=
  render_int (PointX p) +:+ "," +:+ render_int (PointY p).

Fixpoint render_points (ps : list Point) : string :=
  match ps with
  | [] => EmptyString
  | [p] => render_point p
  | p :: ps => render_point p +:+ " " +:+ render_points ps
  end.

(** The values of a Go [int], and the nearest one to an integer. *)
Definition is_int (z : Z) : Prop := - 2 ^ 63 <= z <= 2 ^ 63 - 1.

Definition clamp_int (z : Z) : Z := Z.max (- 2 ^ 63) (Z.min (2 ^ 63 - 1) z).

Definition clamp_point (p : Point) : Point :=
  {| PointX := clamp_int (PointX p); PointY := clamp_int (PointY p) |}.

(** The bytes of a number in decimal, digits and the minus sign: they
    are neither white space nor a comma. *)
Definition number_byte (ch : ascii) : Prop :=
  strings.isSpace ch = false ∧ ch ≠ " "%char ∧ ch ≠ ","%char.

(** The example map without its tileset: the tile of the layer has none. *)
Definition no_tilesets : Map.t :=
  {| Map.Width := 2; Map.Height := 1; Map.TileWidth := 32; Map.TileHeight := 32;
     Map.Layers := [Demo.ground]; Map.Tilesets := [] |}.

(** A map with a layer and no cell: its width is 0.  The layer holds a
    tile, and the map has no tileset for it. *)
Definition no_cells : Map.t :=
  {| Map.Width := 0; Map.Height := 1; Map.TileWidth := 32; Map.TileHeight := 32;
     Map.Layers := [Demo.ground]; Map.Tilesets := [] |}.

Section MoreVocabulary.
Context {F : FloatOps} {L : Lmath} {T : Tmx}.

(** The tile of a cell that [Load] compiles: its GID, the tileset that owns
    it and the image of that tileset, when all three are there. *)
Definition cell_tile (m : Map.t) (tsImages : gmap string image.RGBA)
    (layer : Layer.t) (xy : Coord) : option (Z * Tileset.t * image.RGBA) :=
  gid ← Layer.Tiles layer !! xy;
  tileset ← FindTileset m gid;
  rgba ← tsImages !! filepath_Base (Tileset.Source (Tileset.Image tileset));
  Some (gid, tileset, rgba).

(** The vertices that the cells of a list add to batch [k], in the order
    of the list: the card of each cell whose tile goes to [k], at the tile
    offset that is left when the cell is reached. *)
Fixpoint batch_cards (m : Map.t) (c : Config) (tsImages : gmap string image.RGBA)
    (layer : Layer.t) (layerOffset : float64) (k : string) (cells : list Coord)
    (tileOffset : float64) : list gfx.Vec3 :=
  match cells with
  | [] => []
  | xy :: cells =>
      match cell_tile m tsImages layer xy with
      | Some (gid, tileset, _) =>
          (if decide (filepath_Base (Tileset.Source (Tileset.Image tileset)) = k)
           then card_in_world m tileset gid xy.1 xy.2 layerOffset tileOffset
           else [])
          ++ batch_cards m c tsImages layer layerOffset k cells
               (f64_sub tileOffset (TileOffset c))
      | None => batch_cards m c tsImages layer layerOffset k cells tileOffset
      end
  end.

(** The texture coordinates that the cells of a list add to batch [k]. *)
Fixpoint batch_uvs (m : Map.t) (tsImages : gmap string image.RGBA)
    (layer : Layer.t) (k : string) (cells : list Coord) : list gfx.TexCoord :=
  match cells with
  | [] => []
  | xy :: cells =>
      match cell_tile m tsImages layer xy with
      | Some (gid, tileset, rgba) =>
          (if decide (filepath_Base (Tileset.Source (Tileset.Image tileset)) = k)
           then card_uvs_of m tileset gid rgba
           else [])
          ++ batch_uvs m tsImages layer k cells
      | None => batch_uvs m tsImages layer k cells
      end
  end.

(** What [Load] keeps true of the object of batch [k]: it is the object
    made for the image supplied under [k] (lines 203-221) but for its one
    mesh, which holds at least one card, with one set of texture coordinates
    that has an entry for each vertex. *)
Definition batch_shape (tsImages : gmap string image.RGBA) (k : string)
    (obj : gfx.Object) : Prop :=
  ∃ rgba mesh n,
    tsImages !! k = Some rgba
    ∧ gfx.ObjShader obj = Some Shader
    ∧ gfx.ObjState obj
      = {| gfx.FaceCulling := gfx.NoFaceCulling; gfx.Alpha := gfx.AlphaToCoverage |}
    ∧ gfx.Textures obj
      = [ {| gfx.Source := Some rgba;
             gfx.TexBounds := image.Bounds rgba;
             gfx.WrapU := gfx.Clamp;
             gfx.WrapV := gfx.Clamp;
             gfx.MinFilter := gfx.LinearMipmapLinear;
             gfx.MagFilter := gfx.Linear |} ]
    ∧ gfx.Meshes obj = [mesh]
    ∧ gfx.TexCoords mesh = [ {| gfx.Slice := uv_channel mesh |} ]
    ∧ length (gfx.Vertices mesh) = (6 * S n)%nat
    ∧ length (uv_channel mesh) = (6 * S n)%nat.

(** Every object of a layer has the shape of a batch. *)
Definition batches_shaped (tsImages : gmap string image.RGBA)
    (objs : gmap string gfx.Object) : Prop :=
  ∀ k obj, objs !! k = Some obj → batch_shape tsImages k obj.

End MoreVocabulary.

(** * Properties *)

(** ** The quad emitter *)

Section CardFacts.
Context {F : FloatOps}.

Lemma addv_vertices depth (m : gfx.Mesh) x y :
  gfx.Vertices (addv depth m x y)
  = gfx.Vertices m ++ [ {| gfx.vx := x; gfx.vy := depth; gfx.vz := y |} ].
Proof. reflexivity. Qed.

Lemma addv_uv depth (m : gfx.Mesh) x y : uv_channel (addv depth m x y) = uv_channel m.
Proof. reflexivity. Qed.

Lemma addt_vertices (m : gfx.Mesh) u v : gfx.Vertices (addt m u v) = gfx.Vertices m.
Proof.
  unfold addt. destruct (gfx.TexCoords m) as [|s rest]; reflexivity.
Qed.

Lemma addt_uv (m : gfx.Mesh) u v :
  uv_channel (addt m u v) = uv_channel m ++ [ {| gfx.tu := u; gfx.tv := v |} ].
Proof.
  unfold addt, uv_channel. destruct (gfx.TexCoords m) as [|s rest]; reflexivity.
Qed.

Lemma appendCard_vertices m l r b t depth rect tex :
  gfx.Vertices (appendCard m l r b t depth rect tex)
  = gfx.Vertices m ++ card_vertices l r b t depth.
Proof.
  unfold appendCard. destruct (cardUV rect tex) as [[[u0 v0] u1] v1].
  rewrite !addt_vertices, !addv_vertices, <- !app_assoc. reflexivity.
Qed.

Lemma appendCard_uv m l r b t depth rect tex :
  uv_channel (appendCard m l r b t depth rect tex)
  = uv_channel m ++ card_uvs rect tex.
Proof.
  unfold appendCard, card_uvs. destruct (cardUV rect tex) as [[[u0 v0] u1] v1].
  rewrite !addt_uv, !addv_uv, <- !app_assoc. reflexivity.
Qed.

End CardFacts.

(** ** Loops *)

Section LoopFacts.
Context {A S : Type}.
Implicit Types (body : S → A → option S) (xs ys : list A) (s : S).

Lemma for_each_app body xs ys s :
  for_each body (xs ++ ys) s = s' ← for_each body xs s; for_each body ys s'.
Proof.
  revert s. induction xs as [|x xs IH]; intros s; simpl; [reflexivity|].
  destruct (body s x) as [s1|]; simpl; [apply IH | reflexivity].
Qed.

Lemma for_each_snoc body xs x s :
  for_each body (xs ++ [x]) s = s' ← for_each body xs s; body s' x.
Proof.
  rewrite for_each_app. destruct (for_each body xs s) as [s1|]; simpl; [|reflexivity].
  destruct (body s1 x); reflexivity.
Qed.

Lemma for_each_ext body body' xs s :
  (∀ s x, x ∈ xs → body s x = body' s x) →
  for_each body xs s = for_each body' xs s.
Proof.
  revert s. induction xs as [|x xs IH]; intros s Hext; simpl; [reflexivity|].
  rewrite <- Hext by left.
  destruct (body s x) as [s1|]; simpl; [|reflexivity].
  apply IH. intros s2 x2 Hin. apply Hext. by right.
Qed.

(** A prefix of a run that succeeds succeeds. *)
Lemma for_each_prefix body xs ys s s2 :
  for_each body (xs ++ ys) s = Some s2 →
  ∃ s1, for_each body xs s = Some s1 ∧ for_each body ys s1 = Some s2.
Proof.
  rewrite for_each_app. destruct (for_each body xs s) as [s1|]; simpl; [|discriminate].
  eauto.
Qed.

End LoopFacts.

(** Two nested loops are one loop over the pairs. *)
Lemma for_each_nested {A B S : Type} (body : S → A * B → option S)
    (xs : list A) (ys : list B) (s : S) :
  for_each (λ s x, for_each (λ s y, body s (x, y)) ys s) xs s
  = for_each body (x ← xs; y ← ys; [(x, y)]) s.
Proof.
  revert s. induction xs as [|x xs IH]; intros s; [reflexivity|].
  cbn [for_each mbind list_bind]. rewrite for_each_app.
  assert (for_each body (y ← ys; [(x, y)]) s = for_each (λ s y, body s (x, y)) ys s) as ->.
  { clear IH. revert s. induction ys as [|y ys IHy]; intros s; [reflexivity|].
    cbn. destruct (body s (x, y)) as [s1|]; simpl; [apply IHy | reflexivity]. }
  destruct (for_each _ ys s) as [s1|]; simpl; [apply IH | reflexivity].
Qed.

(** ** The tile compiler *)

Section CompilerFacts.
Context {F : FloatOps} {L : Lmath} {T : Tmx}.
Implicit Types (m : Map.t) (c : Config) (tsImages : gmap string image.RGBA)
  (layer : Layer.t) (st : LayerState) (objs : gmap string gfx.Object)
  (xy : Coord) (cells : list Coord) (k : string).

(** *** The in-place transformation *)

Lemma transform_loop (f : gfx.Vec3 → gfx.Vec3) (s : nat) (mid : list gfx.Vec3) :
  ∀ (j : nat) (pre post : list gfx.Vec3),
    length pre = (s + j)%nat →
    foldl (λ vs iv, <[(s + iv.1)%nat := f iv.2]> vs)
          (pre ++ mid ++ post) (imap (λ i v, ((j + i)%nat, v)) mid)
    = pre ++ (f <$> mid) ++ post.
Proof.
  induction mid as [|a mid IH]; intros j pre post Hlen; [reflexivity|].
  cbn [imap foldl fmap list_fmap]. cbn [fst snd].
  replace (s + (j + 0))%nat with (length pre + 0)%nat by lia.
  rewrite insert_app_r. cbn [list_insert app].
  specialize (IH (S j) (pre ++ [f a]) post).
  rewrite <- !app_assoc in IH. cbn [app] in IH.
  rewrite <- IH by (rewrite length_app; simpl; lia).
  f_equal. apply imap_ext. intros i x _. simpl. f_equal. lia.
Qed.

(** The loop rewrites the vertices of the card and leaves the others. *)
Lemma transform_card_appended trans (old card : list gfx.Vec3) :
  transform_card trans (length old) (length (old ++ card)) (old ++ card)
  = old ++ (transform_vertex trans <$> card).
Proof.
  unfold transform_card. rewrite length_app.
  replace (length old + length card - length old)%nat with (length card) by lia.
  rewrite drop_app_length, firstn_all.
  pose proof (transform_loop (transform_vertex trans) (length old) card 0 old []) as Hloop.
  rewrite !app_nil_r in Hloop. rewrite <- Hloop by lia.
  f_equal.
Qed.

(** *** One cell *)

Lemma cell_no_tile m c tsImages layer lo x y st :
  Layer.Tiles layer !! (x, y) = None →
  cell m c tsImages layer lo x y st = Some st.
Proof. intros Hnone. unfold cell. rewrite Hnone. reflexivity. Qed.

Lemma cell_nil_tileset m c tsImages layer lo x y st gid :
  Layer.Tiles layer !! (x, y) = Some gid →
  FindTileset m gid = None →
  cell m c tsImages layer lo x y st = None.
Proof. intros Hgid Hnil. unfold cell. rewrite Hgid, Hnil. reflexivity. Qed.

Lemma cell_no_image m c tsImages layer lo x y st gid tileset :
  Layer.Tiles layer !! (x, y) = Some gid →
  FindTileset m gid = Some tileset →
  tsImages !! filepath_Base (Tileset.Source (Tileset.Image tileset)) = None →
  cell m c tsImages layer lo x y st = Some st.
Proof.
  intros Hgid Hts Himg. unfold cell. rewrite Hgid, Hts. cbn [mbind option_bind].
  rewrite Himg. reflexivity.
Qed.

(** A tile whose image was supplied: its card goes to the end of the
    mesh of its batch, already transformed, and the offset moves on. *)
Lemma cell_placed m c tsImages layer lo x y st gid tileset rgba mesh meshes :
  let k := filepath_Base (Tileset.Source (Tileset.Image tileset)) in
  let obj := batch_object (texObjects st) k rgba in
  Layer.Tiles layer !! (x, y) = Some gid →
  FindTileset m gid = Some tileset →
  tsImages !! k = Some rgba →
  gfx.Meshes obj = mesh :: meshes →
  ∃ mesh',
    cell m c tsImages layer lo x y st
    = Some {| texObjects :=
                <[k := {| gfx.ObjShader := gfx.ObjShader obj;
                          gfx.ObjState := gfx.ObjState obj;
                          gfx.Meshes := mesh' :: meshes;
                          gfx.Textures := gfx.Textures obj |}]> (texObjects st);
              tileOffset := f64_sub (tileOffset st) (TileOffset c) |}
    ∧ gfx.Vertices mesh'
      = gfx.Vertices mesh ++ card_in_world m tileset gid x y lo (tileOffset st)
    ∧ uv_channel mesh' = uv_channel mesh ++ card_uvs_of m tileset gid rgba.
Proof.
  intros k obj Hgid Hts Himg Hmesh. unfold cell. rewrite Hgid, Hts.
  cbn [mbind option_bind]. fold k. rewrite Himg.
  set (r := TilesetRect m tileset _ _ true gid).
  set (hw := halfWidth tileset). set (hh := halfHeight tileset).
  set (mesh1 := appendCard mesh (f32_neg hw) hw (f32_neg hh) hh (f32_of_int 0) r
                  (image.Bounds rgba)).
  set (trans := Mat4_Mul (flip_of gid)
                  (Mat4FromTranslation (move_of m tileset x y lo (tileOffset st)))).
  set (card := card_vertices (f32_neg hw) hw (f32_neg hh) hh (f32_of_int 0)).
  assert (transform_card trans (length (gfx.Vertices mesh))
            (length (gfx.Vertices mesh1)) (gfx.Vertices mesh1)
          = gfx.Vertices mesh ++ (transform_vertex trans <$> card)) as Htc.
  { unfold mesh1. rewrite appendCard_vertices. apply transform_card_appended. }
  exists {| gfx.Vertices := gfx.Vertices mesh ++ (transform_vertex trans <$> card);
            gfx.TexCoords := gfx.TexCoords mesh1 |}.
  split; [|split; [reflexivity|]].
  - unfold obj, batch_object in *.
    destruct (texObjects st !! k) as [o|] eqn:Hobj;
      cbn [default from_option id] in *; cbv beta iota zeta;
      rewrite Hmesh; fold mesh1; rewrite Htc.
    + reflexivity.
    + rewrite insert_insert_eq. reflexivity.
  - cbn [gfx.TexCoords uv_channel]. apply appendCard_uv.
Qed.

Lemma card_in_world_length m tileset gid x y lo t :
  length (card_in_world m tileset gid x y lo t) = 6%nat.
Proof. reflexivity. Qed.

Lemma batch_object_one_mesh objs k rgba :
  one_mesh objs → ∃ mesh, gfx.Meshes (batch_object objs k rgba) = [mesh]
    ∧ length (gfx.Vertices mesh) = batch_vertices objs k.
Proof.
  intros Hone. unfold batch_object, batch_vertices.
  destruct (objs !! k) as [o|] eqn:Hobj; simpl.
  - destruct (Hone k o Hobj) as [mesh Hmesh]. exists mesh. by rewrite Hmesh.
  - by exists gfx.NewMesh.
Qed.

(** What one cell does to the state, by the batch of the cell. *)
Lemma cell_summary m c tsImages layer lo x y st st' :
  one_mesh (texObjects st) →
  cell m c tsImages layer lo x y st = Some st' →
  one_mesh (texObjects st') ∧
  match cell_key m tsImages layer (x, y) with
  | Some k =>
      batch_vertices (texObjects st') k = (batch_vertices (texObjects st) k + 6)%nat
      ∧ is_Some (texObjects st' !! k)
      ∧ (∀ k', k' ≠ k → texObjects st' !! k' = texObjects st !! k')
      ∧ tileOffset st' = f64_sub (tileOffset st) (TileOffset c)
  | None => st' = st
  end.
Proof.
  intros Hone Hcell. unfold cell_key.
  destruct (Layer.Tiles layer !! (x, y)) as [gid|] eqn:Hgid; cbn [mbind option_bind].
  2:{ rewrite cell_no_tile in Hcell by done. simplify_eq. by split. }
  destruct (FindTileset m gid) as [tileset|] eqn:Hts; cbn [mbind option_bind].
  2:{ by rewrite (cell_nil_tileset _ _ _ _ _ _ _ _ gid) in Hcell. }
  set (k := filepath_Base (Tileset.Source (Tileset.Image tileset))).
  destruct (tsImages !! k) as [rgba|] eqn:Himg.
  2:{ rewrite (cell_no_image _ _ _ _ _ _ _ _ gid tileset) in Hcell by done.
      simplify_eq. by split. }
  destruct (batch_object_one_mesh (texObjects st) k rgba Hone) as (mesh & Hmesh & Hlen).
  destruct (cell_placed m c tsImages layer lo x y st gid tileset rgba mesh []
              Hgid Hts Himg Hmesh) as (mesh' & Heq & Hverts & _).
  rewrite Heq in Hcell. simplify_eq. cbn [texObjects tileOffset]. fold k.
  split; [|split; [|split; [|split]]].
  - intros k' o. destruct (decide (k' = k)) as [->|Hne].
    + rewrite lookup_insert_eq. intros [= <-]. by eexists.
    + rewrite lookup_insert_ne by done. apply Hone.
  - unfold batch_vertices at 1. rewrite lookup_insert_eq. cbn [gfx.Meshes].
    rewrite Hverts, length_app, card_in_world_length. lia.
  - rewrite lookup_insert_eq. by eexists.
  - intros k' Hne. by rewrite lookup_insert_ne.
  - reflexivity.
Qed.

(** A cell only fails on a tile without a tileset. *)
Lemma cell_is_Some m c tsImages layer lo x y st :
  one_mesh (texObjects st) →
  (∀ gid, Layer.Tiles layer !! (x, y) = Some gid → is_Some (FindTileset m gid)) →
  is_Some (cell m c tsImages layer lo x y st).
Proof.
  intros Hone Hfound.
  destruct (Layer.Tiles layer !! (x, y)) as [gid|] eqn:Hgid.
  2:{ rewrite cell_no_tile by done. by eexists. }
  destruct (Hfound gid eq_refl) as [tileset Hts].
  set (k := filepath_Base (Tileset.Source (Tileset.Image tileset))).
  destruct (tsImages !! k) as [rgba|] eqn:Himg.
  2:{ rewrite (cell_no_image _ _ _ _ _ _ _ _ gid tileset) by done. by eexists. }
  destruct (batch_object_one_mesh (texObjects st) k rgba Hone) as (mesh & Hmesh & _).
  destruct (cell_placed m c tsImages layer lo x y st gid tileset rgba mesh []
              Hgid Hts Himg Hmesh) as (mesh' & -> & _).
  by eexists.
Qed.

(** *** The cells of one layer *)

Lemma run_cells_cons m c tsImages layer lo x y cells st :
  run_cells m c tsImages layer lo ((x, y) :: cells) st
  = st1 ← cell m c tsImages layer lo x y st; run_cells m c tsImages layer lo cells st1.
Proof. reflexivity. Qed.

Lemma placed_cell_key m tsImages layer xy :
  placed m tsImages layer xy ↔ ∃ k, cell_key m tsImages layer xy = Some k.
Proof. unfold placed. rewrite bool_decide_spec. reflexivity. Qed.

Lemma cells_of_batch_cons m tsImages layer k xy cells :
  cells_of_batch m tsImages layer k (xy :: cells)
  = if decide (cell_key m tsImages layer xy = Some k)
    then xy :: cells_of_batch m tsImages layer k cells
    else cells_of_batch m tsImages layer k cells.
Proof. unfold cells_of_batch. rewrite filter_cons. reflexivity. Qed.

Lemma run_cells_summary m c tsImages layer lo cells :
  ∀ st st',
    one_mesh (texObjects st) →
    run_cells m c tsImages layer lo cells st = Some st' →
    one_mesh (texObjects st')
    ∧ (∀ k, batch_vertices (texObjects st') k
            = (batch_vertices (texObjects st) k
               + 6 * length (cells_of_batch m tsImages layer k cells))%nat)
    ∧ (∀ k, is_Some (texObjects st' !! k)
            ↔ is_Some (texObjects st !! k)
              ∨ cells_of_batch m tsImages layer k cells ≠ [])
    ∧ tileOffset st'
      = offset_after (TileOffset c)
          (length (filter (placed m tsImages layer) cells)) (tileOffset st).
Proof.
  induction cells as [|[x y] cells IH]; intros st st' Hone Hrun.
  { change (Some st = Some st') in Hrun. injection Hrun as <-.
    split; [done|]. unfold cells_of_batch, offset_after.
    split; [|split]; [intros k; cbn; lia | intros k; cbn; tauto | reflexivity]. }
  rewrite run_cells_cons in Hrun.
  destruct (cell m c tsImages layer lo x y st) as [st1|] eqn:Hcell; [|discriminate].
  simpl in Hrun.
  destruct (cell_summary _ _ _ _ _ _ _ _ _ Hone Hcell) as [Hone1 Hstep].
  destruct (IH st1 st' Hone1 Hrun) as (Hone' & Hcount & Hdom & Hoff).
  split; [done|].
  destruct (cell_key m tsImages layer (x, y)) as [k0|] eqn:Hkey.
  - destruct Hstep as (Hv & Hsome & Hother & Ht).
    assert (placed m tsImages layer (x, y)) as Hpl by (apply placed_cell_key; eauto).
    split; [|split].
    + intros k. rewrite Hcount, cells_of_batch_cons, Hkey.
      destruct (decide (Some k0 = Some k)) as [[= ->]|Hne].
      * rewrite Hv. simpl. lia.
      * unfold batch_vertices. rewrite Hother by congruence. reflexivity.
    + intros k. rewrite Hdom, cells_of_batch_cons, Hkey.
      destruct (decide (Some k0 = Some k)) as [[= ->]|Hne].
      * split; [intros _; by right | intros _; by left].
      * rewrite Hother by congruence. reflexivity.
    + rewrite Hoff, Ht, filter_cons_True by done. unfold offset_after.
      cbn [length]. by rewrite Nat.iter_succ_r.
  - subst st1.
    assert (¬ placed m tsImages layer (x, y)) as Hnp.
    { rewrite placed_cell_key, Hkey. by intros [? ?]. }
    split; [|split].
    + intros k. rewrite Hcount, cells_of_batch_cons, Hkey.
      destruct (decide (None = Some k)); [done|reflexivity].
    + intros k. rewrite Hdom, cells_of_batch_cons, Hkey.
      destruct (decide (None = Some k)); [done|reflexivity].
    + by rewrite Hoff, filter_cons_False.
Qed.

Lemma run_cells_is_Some m c tsImages layer lo cells :
  ∀ st, one_mesh (texObjects st) →
        tilesets_found m layer cells →
        is_Some (run_cells m c tsImages layer lo cells st).
Proof.
  induction cells as [|[x y] cells IH]; intros st Hone Hfound; [by eexists|].
  rewrite run_cells_cons.
  destruct (cell_is_Some m c tsImages layer lo x y st Hone) as [st1 Hcell].
  { intros gid Hgid. apply (Hfound (x, y)); [by left | done]. }
  rewrite Hcell. simpl.
  destruct (cell_summary _ _ _ _ _ _ _ _ _ Hone Hcell) as [Hone1 _].
  apply IH; [done|]. intros xy gid Hin. apply Hfound. by right.
Qed.

Lemma one_mesh_empty : one_mesh (texObjects layer_init).
Proof. intros k obj. simpl. by rewrite lookup_empty. Qed.

(** The two loops of a layer visit the cells of [raster]. *)
Lemma compile_layer_raster m c tsImages layer lo :
  compile_layer m c tsImages layer lo
  = run_cells m c tsImages layer lo (raster (Map.Width m) (Map.Height m)) layer_init.
Proof.
  unfold compile_layer, run_cells, raster.
  apply (for_each_nested (λ st xy, cell m c tsImages layer lo xy.1 xy.2 st)).
Qed.

(** *** The layers *)

Implicit Types (s : LoadState) (ls : list Layer.t).

Lemma layer_step_inv m c tsImages s layer s' :
  layer_step m c tsImages s layer = Some s' →
  ∃ st, compile_layer m c tsImages layer (layerOffset s) = Some st
        ∧ layers s' = <[Layer.Name layer := texObjects st]> (layers s)
        ∧ layerOffset s' = f64_sub (layerOffset s) (LayerOffset c).
Proof.
  unfold layer_step. intros Hstep.
  destruct (compile_layer m c tsImages layer (layerOffset s)) as [st|]; [|discriminate].
  simpl in Hstep. simplify_eq. by exists st.
Qed.

Lemma run_layers_offset m c tsImages ls :
  ∀ s s', run_layers m c tsImages ls s = Some s' →
          layerOffset s' = offset_after (LayerOffset c) (length ls) (layerOffset s).
Proof.
  unfold run_layers, offset_after.
  induction ls as [|l ls IH]; intros s s' Hrun; simpl in Hrun; [by simplify_eq|].
  destruct (layer_step m c tsImages s l) as [s1|] eqn:Hstep; [|discriminate].
  simpl in Hrun. rewrite (IH _ _ Hrun).
  destruct (layer_step_inv _ _ _ _ _ _ Hstep) as (st & _ & _ & ->).
  cbn [length]. by rewrite Nat.iter_succ_r.
Qed.

Lemma run_layers_other m c tsImages ls name :
  ∀ s s', run_layers m c tsImages ls s = Some s' →
          (∀ l, l ∈ ls → Layer.Name l ≠ name) →
          layers s' !! name = layers s !! name.
Proof.
  unfold run_layers.
  induction ls as [|l ls IH]; intros s s' Hrun Hne; simpl in Hrun; [by simplify_eq|].
  destruct (layer_step m c tsImages s l) as [s1|] eqn:Hstep; [|discriminate].
  simpl in Hrun. rewrite (IH _ _ Hrun) by (intros l' Hin; apply Hne; by right).
  destruct (layer_step_inv _ _ _ _ _ _ Hstep) as (st & _ & -> & _).
  apply lookup_insert_ne, Hne. by left.
Qed.

(** The entry of a name is the one of the last layer with that name. *)
Lemma run_layers_last m c tsImages before l after s s' :
  run_layers m c tsImages (before ++ l :: after) s = Some s' →
  (∀ l', l' ∈ after → Layer.Name l' ≠ Layer.Name l) →
  ∃ s1 st,
    run_layers m c tsImages before s = Some s1
    ∧ compile_layer m c tsImages l (layerOffset s1) = Some st
    ∧ layers s' !! Layer.Name l = Some (texObjects st).
Proof.
  unfold run_layers. intros Hrun Hne.
  apply for_each_prefix in Hrun as (s1 & Hbefore & Hrest).
  simpl in Hrest.
  destruct (layer_step m c tsImages s1 l) as [s2|] eqn:Hstep; [|discriminate].
  simpl in Hrest.
  destruct (layer_step_inv _ _ _ _ _ _ Hstep) as (st & Hst & Hlayers & _).
  exists s1, st. split; [done|split; [done|]].
  rewrite (run_layers_other m c tsImages after (Layer.Name l) s2 s' Hrest Hne).
  rewrite Hlayers. apply lookup_insert_eq.
Qed.

Lemma run_layers_names m c tsImages ls name :
  ∀ s s', run_layers m c tsImages ls s = Some s' →
          (is_Some (layers s' !! name)
           ↔ is_Some (layers s !! name) ∨ ∃ l, l ∈ ls ∧ Layer.Name l = name).
Proof.
  unfold run_layers.
  induction ls as [|l ls IH]; intros s s' Hrun; simpl in Hrun.
  { simplify_eq. split; [by left|]. intros [?|(l & Hin & _)]; [done|]. by inversion Hin. }
  destruct (layer_step m c tsImages s l) as [s1|] eqn:Hstep; [|discriminate].
  simpl in Hrun. rewrite (IH _ _ Hrun).
  destruct (layer_step_inv _ _ _ _ _ _ Hstep) as (st & _ & -> & _).
  rewrite lookup_insert_is_Some. setoid_rewrite elem_of_cons.
  split.
  - intros [[Heq|[_ ?]]|(l' & Hin & Heq)]; [right; exists l | by left | right; exists l'];
      split; auto.
  - intros [?|(l' & [Hl|Hin] & Heq)].
    + destruct (decide (Layer.Name l = name)); auto.
    + subst l'. auto.
    + right. exists l'. auto.
Qed.

Lemma compile_layer_is_Some m c tsImages layer lo :
  tilesets_found m layer (raster (Map.Width m) (Map.Height m)) →
  is_Some (compile_layer m c tsImages layer lo).
Proof.
  intros Hfound. rewrite compile_layer_raster.
  by apply run_cells_is_Some; [apply one_mesh_empty|].
Qed.

Lemma run_layers_is_Some m c tsImages ls :
  ∀ s, (∀ l, l ∈ ls → tilesets_found m l (raster (Map.Width m) (Map.Height m))) →
       is_Some (run_layers m c tsImages ls s).
Proof.
  unfold run_layers.
  induction ls as [|l ls IH]; intros s Hfound; [by eexists|]. cbn [for_each].
  destruct (compile_layer_is_Some m c tsImages l (layerOffset s)) as [st Hst].
  { apply Hfound. by left. }
  assert (is_Some (layer_step m c tsImages s l)) as [s1 ->].
  { unfold layer_step. rewrite Hst. by eexists. }
  cbn [mbind option_bind]. apply IH. intros l' Hin. apply Hfound. by right.
Qed.

Lemma Load_run m (config : option Config) tsImages :
  Load m config tsImages
  = layers <$> run_layers m (default default_config config) tsImages
                 (Map.Layers m) load_init.
Proof. reflexivity. Qed.

(** *** Batches *)

Lemma batch_vertices_mesh objs k :
  batch_vertices objs k = length (gfx.Vertices (batch_mesh objs k)).
Proof.
  unfold batch_vertices, batch_mesh. destruct (objs !! k) as [obj|]; [|reflexivity].
  destruct (gfx.Meshes obj); reflexivity.
Qed.

Lemma cell_key_image m tsImages layer xy k :
  cell_key m tsImages layer xy = Some k → is_Some (tsImages !! k).
Proof.
  unfold cell_key. intros Hkey.
  destruct (Layer.Tiles layer !! xy) as [gid|]; [|discriminate].
  cbn [mbind option_bind] in Hkey.
  destruct (FindTileset m gid) as [tileset|]; [|discriminate].
  cbn [mbind option_bind] in Hkey.
  destruct (tsImages !! _) as [rgba|] eqn:Himg; [|discriminate].
  injection Hkey as <-. by eexists.
Qed.

(** The states [Load] reaches in a layer keep one mesh per object. *)
Lemma reached_one_mesh m c tsImages layer lo visited st :
  run_cells m c tsImages layer lo visited layer_init = Some st →
  one_mesh (texObjects st).
Proof.
  intros Hrun.
  by destruct (run_cells_summary _ _ _ _ _ _ _ _ one_mesh_empty Hrun) as [? _].
Qed.

(** The card of a placed tile is appended to the mesh of its batch. *)
Lemma cell_appends m c tsImages layer lo x y st gid tileset rgba :
  let k := filepath_Base (Tileset.Source (Tileset.Image tileset)) in
  one_mesh (texObjects st) →
  Layer.Tiles layer !! (x, y) = Some gid →
  FindTileset m gid = Some tileset →
  tsImages !! k = Some rgba →
  ∃ st',
    cell m c tsImages layer lo x y st = Some st'
    ∧ gfx.Vertices (batch_mesh (texObjects st') k)
      = gfx.Vertices (batch_mesh (texObjects st) k)
        ++ card_in_world m tileset gid x y lo (tileOffset st)
    ∧ uv_channel (batch_mesh (texObjects st') k)
      = uv_channel (batch_mesh (texObjects st) k) ++ card_uvs_of m tileset gid rgba
    ∧ tileOffset st' = f64_sub (tileOffset st) (TileOffset c).
Proof.
  intros k Hone Hgid Hts Himg.
  assert (∃ mesh, gfx.Meshes (batch_object (texObjects st) k rgba) = [mesh]
                  ∧ batch_mesh (texObjects st) k = mesh) as (mesh & Hmesh & Hbm).
  { unfold batch_object, batch_mesh.
    destruct (texObjects st !! k) as [o|] eqn:Hobj; cbn [default from_option id].
    - destruct (Hone k o Hobj) as [mesh Hmesh]. exists mesh. by rewrite Hmesh.
    - by exists gfx.NewMesh. }
  destruct (cell_placed m c tsImages layer lo x y st gid tileset rgba mesh []
              Hgid Hts Himg Hmesh) as (mesh' & Heq & Hverts & Huv).
  eexists. split; [exact Heq|]. cbn [texObjects tileOffset].
  unfold batch_mesh at 1 3. fold k. rewrite lookup_insert_eq.
  cbn [gfx.Meshes head default from_option id]. rewrite Hbm. auto.
Qed.

Lemma cell_key_inv m tsImages layer x y k :
  cell_key m tsImages layer (x, y) = Some k →
  ∃ gid tileset rgba,
    Layer.Tiles layer !! (x, y) = Some gid
    ∧ FindTileset m gid = Some tileset
    ∧ k = filepath_Base (Tileset.Source (Tileset.Image tileset))
    ∧ tsImages !! k = Some rgba.
Proof.
  unfold cell_key. intros Hkey.
  destruct (Layer.Tiles layer !! (x, y)) as [gid|] eqn:Hgid; [|discriminate].
  simpl in Hkey.
  destruct (FindTileset m gid) as [tileset|] eqn:Hts; [|discriminate].
  simpl in Hkey.
  destruct (tsImages !! _) as [rgba|] eqn:Himg; [|discriminate].
  injection Hkey as <-. by exists gid, tileset, rgba.
Qed.

(** *** The flip table *)

(** A test [(gid & flag) > 0] of lines 240-242 reads one bit of the GID
    when the flag is a power of two. *)
Lemma flag_test_bit (gid n : Z) :
  0 <= n → bool_decide (0 < Z.land gid (2 ^ n)) = Z.testbit gid n.
Proof.
  intros Hn.
  assert (Z.land gid (2 ^ n) = if Z.testbit gid n then 2 ^ n else 0) as ->.
  { apply Z.bits_inj'. intros i Hi.
    rewrite Z.land_spec, Z.pow2_bits_eqb by done.
    destruct (Z.eqb_spec n i) as [->|Hne].
    - destruct (Z.testbit gid i); [by rewrite Z.pow2_bits_true|by rewrite Z.bits_0].
    - rewrite andb_false_r.
      destruct (Z.testbit gid n); [by rewrite Z.pow2_bits_false|by rewrite Z.bits_0]. }
  destruct (Z.testbit gid n).
  - apply bool_decide_eq_true. by apply Z.pow_pos_nonneg.
  - by apply bool_decide_eq_false.
Qed.

(** C2: for every tile the orientation transform that [Load] composes is
    the entry of the fixed table of eight cases at the flags (d, h, v) of the
    GID, where d, h and v are the bits 29, 30 and 31 of the GID and the
    primitives of the table are the rotations by +90 and -90 degrees about
    the vertical axis and the two mirrors, each entry being its primitives
    composed from the identity as newTransform = primitive * accumulated.
    The three flag constants are declared outside of these files: they are
    taken with the values of the specification. *)
Theorem flip_of_table (gid : Z) :
  FLIPPED_DIAGONALLY_FLAG = 2 ^ 29 →
  FLIPPED_HORIZONTALLY_FLAG = 2 ^ 30 →
  FLIPPED_VERTICALLY_FLAG = 2 ^ 31 →
  (diagFlipped gid = diagonal_bit gid
   ∧ horizFlipped gid = horizontal_bit gid
   ∧ vertFlipped gid = vertical_bit gid)
  ∧ flip_of gid
    = compose (flip_table (diagonal_bit gid) (horizontal_bit gid) (vertical_bit gid)).
Proof.
  intros Hd Hh Hv.
  assert (diagFlipped gid = diagonal_bit gid) as Hdiag.
  { unfold diagFlipped, diagonal_bit. rewrite Hd. by apply flag_test_bit. }
  assert (horizFlipped gid = horizontal_bit gid) as Hhoriz.
  { unfold horizFlipped, horizontal_bit. rewrite Hh. by apply flag_test_bit. }
  assert (vertFlipped gid = vertical_bit gid) as Hvert.
  { unfold vertFlipped, vertical_bit. rewrite Hv. by apply flag_test_bit. }
  split; [done|]. unfold flip_of, compose. rewrite Hdiag, Hhoriz, Hvert.
  destruct (diagonal_bit gid), (horizontal_bit gid), (vertical_bit gid); reflexivity.
Qed.

(** *** Six vertices for every tile *)

(** C5: every call of the quad emitter appends exactly six vertices and
    exactly six texture coordinates, in the same order, so that the two
    buffers stay paired; and every cell that is compiled into a batch makes
    the vertex count of that batch, and of no other, grow by six. *)
Theorem appendCard_six :
  (∀ (mesh : gfx.Mesh) l r b t depth rect tex,
     let mesh' := appendCard mesh l r b t depth rect tex in
     gfx.Vertices mesh' = gfx.Vertices mesh ++ card_vertices l r b t depth
     ∧ uv_channel mesh' = uv_channel mesh ++ card_uvs rect tex
     ∧ length (gfx.Vertices mesh') = (length (gfx.Vertices mesh) + 6)%nat
     ∧ length (uv_channel mesh') = (length (uv_channel mesh) + 6)%nat
     ∧ (length (gfx.Vertices mesh) = length (uv_channel mesh) →
        zip (gfx.Vertices mesh') (uv_channel mesh')
        = zip (gfx.Vertices mesh) (uv_channel mesh)
          ++ zip (card_vertices l r b t depth) (card_uvs rect tex)))
  ∧ (∀ m c tsImages layer lo visited st x y k,
       run_cells m c tsImages layer lo visited layer_init = Some st →
       cell_key m tsImages layer (x, y) = Some k →
       ∃ st',
         cell m c tsImages layer lo x y st = Some st'
         ∧ batch_vertices (texObjects st') k
           = (batch_vertices (texObjects st) k + 6)%nat
         ∧ ∀ k', k' ≠ k →
                 batch_vertices (texObjects st') k' = batch_vertices (texObjects st) k').
Proof.
  split.
  - intros mesh l r b t depth rect tex mesh'. unfold mesh'.
    rewrite appendCard_vertices, appendCard_uv.
    assert (length (card_uvs rect tex) = 6%nat) as Huv.
    { unfold card_uvs. by destruct (cardUV rect tex) as [[[? ?] ?] ?]. }
    repeat split.
    + by rewrite length_app.
    + rewrite length_app, Huv. reflexivity.
    + intros Hlen. by apply zip_with_app.
  - intros m c tsImages layer lo visited st x y k Hrun Hkey.
    pose proof (reached_one_mesh _ _ _ _ _ _ _ Hrun) as Hone.
    destruct (cell_key_inv _ _ _ _ _ _ Hkey) as (gid & tileset & rgba & Hgid & Hts & -> & Himg).
    destruct (cell_appends m c tsImages layer lo x y st gid tileset rgba
                Hone Hgid Hts Himg) as (st' & Hcell & _).
    exists st'. split; [done|].
    destruct (cell_summary _ _ _ _ _ _ _ _ _ Hone Hcell) as [_ Hstep].
    rewrite Hkey in Hstep. destruct Hstep as (Hv & _ & Hother & _).
    split; [done|]. intros k' Hne. unfold batch_vertices. by rewrite Hother.
Qed.

(** *** Where a tile goes *)

Lemma move_of_spec m tileset x y lo t :
  Tileset.Width tileset = Map.TileWidth m →
  Tileset.Height tileset = Map.TileHeight m →
  move_of m tileset x y lo t = move_spec m x y lo t.
Proof.
  intros Hw Hh. unfold move_of, move_spec, halfWidth, halfHeight.
  by rewrite Hw, Hh.
Qed.

(** *** The order of the cells *)

Lemma raster_column (x h : Z) :
  (y ← seqZ 0 h; [(x, y)]) = (λ y, (x, y)) <$> seqZ 0 h.
Proof. induction (seqZ 0 h) as [|y ys IH]; [reflexivity|]. cbn. by rewrite <- IH. Qed.

Lemma bind_lookup_uniform {A B} (f : A → list B) (n : nat) (l : list A) :
  (∀ a, length (f a) = n) →
  ∀ i j a, l !! i = Some a → (j < n)%nat →
           (l ≫= f) !! (i * n + j)%nat = f a !! j.
Proof.
  intros Hlen. induction l as [|a0 l IH]; intros i j a Hi Hj; [done|].
  cbn [mbind list_bind]. destruct i as [|i]; simpl in Hi.
  - simplify_eq. apply lookup_app_l. rewrite Hlen. lia.
  - rewrite lookup_app_r by (rewrite Hlen; lia).
    rewrite Hlen. replace (S i * n + j - n)%nat with (i * n + j)%nat by lia.
    by apply IH.
Qed.

Lemma bind_length_uniform {A B} (f : A → list B) (n : nat) (l : list A) :
  (∀ a, length (f a) = n) → length (l ≫= f) = (length l * n)%nat.
Proof.
  intros Hlen. induction l as [|a l IH]; [reflexivity|].
  cbn [mbind list_bind]. rewrite length_app, Hlen, IH. simpl. lia.
Qed.

(** Cell [(x, y)] is visited at step [x * h + y]: column after column,
    and each column from the top. *)
Lemma raster_lookup (w h x y : Z) :
  0 <= x < w → 0 <= y < h →
  raster w h !! Z.to_nat (x * h + y) = Some (x, y).
Proof.
  intros Hx Hy. unfold raster.
  replace (Z.to_nat (x * h + y)) with (Z.to_nat x * Z.to_nat h + Z.to_nat y)%nat by nia.
  assert (∀ a : Z, length (y ← seqZ 0 h; [(a, y)]) = Z.to_nat h) as Hlen.
  { intros a. by rewrite raster_column, length_fmap, length_seqZ. }
  rewrite (bind_lookup_uniform (λ x, y ← seqZ 0 h; [(x, y)]) (Z.to_nat h)
             (seqZ 0 w) Hlen (Z.to_nat x) (Z.to_nat y) x).
  - rewrite raster_column, list_lookup_fmap, lookup_seqZ_lt by lia.
    simpl. do 2 f_equal. lia.
  - rewrite lookup_seqZ_lt by lia. f_equal. lia.
  - lia.
Qed.

Lemma raster_length (w h : Z) :
  0 <= w → 0 <= h → length (raster w h) = Z.to_nat (w * h).
Proof.
  intros Hw Hh. unfold raster.
  rewrite (bind_length_uniform (λ x, y ← seqZ 0 h; [(x, y)]) (Z.to_nat h)).
  - rewrite length_seqZ. nia.
  - intros a. by rewrite raster_column, length_fmap, length_seqZ.
Qed.

(** A cell reads the layer at its own coordinate only. *)
Lemma cell_layer_ext m c tsImages layer1 layer2 lo x y st :
  Layer.Tiles layer1 !! (x, y) = Layer.Tiles layer2 !! (x, y) →
  cell m c tsImages layer1 lo x y st = cell m c tsImages layer2 lo x y st.
Proof. intros Heq. unfold cell. by rewrite Heq. Qed.

(** *** The result of [Load] *)

(** The batches of a layer, from the cells of the grid. *)
Lemma compile_layer_batches m c tsImages layer lo st :
  compile_layer m c tsImages layer lo = Some st →
  ∀ k,
    (is_Some (texObjects st !! k)
     ↔ cells_of_batch m tsImages layer k (raster (Map.Width m) (Map.Height m)) ≠ [])
    ∧ batch_vertices (texObjects st) k
      = (6 * length (cells_of_batch m tsImages layer k
                       (raster (Map.Width m) (Map.Height m))))%nat.
Proof.
  rewrite compile_layer_raster. intros Hrun k.
  destruct (run_cells_summary _ _ _ _ _ _ _ _ one_mesh_empty Hrun)
    as (_ & Hcount & Hdom & _).
  split.
  - rewrite Hdom. cbn [texObjects layer_init]. rewrite lookup_empty.
    split; [intros [[? [=]]|?]; done | by right].
  - rewrite Hcount. unfold batch_vertices at 1. cbn [texObjects layer_init].
    by rewrite lookup_empty.
Qed.

Lemma cells_of_batch_image m tsImages layer k cells :
  cells_of_batch m tsImages layer k cells ≠ [] → is_Some (tsImages !! k).
Proof.
  unfold cells_of_batch. intros Hne.
  destruct (filter _ cells) as [|xy rest] eqn:Hf; [done|].
  assert (xy ∈ filter (λ xy, cell_key m tsImages layer xy = Some k) cells) as Hin
    by (rewrite Hf; left).
  apply list_elem_of_filter in Hin as [Hkey _]. by eapply cell_key_image.
Qed.

Lemma cells_of_batch_none m tsImages layer k cells :
  (∀ xy, xy ∈ cells → cell_key m tsImages layer xy ≠ Some k) →
  cells_of_batch m tsImages layer k cells = [].
Proof.
  unfold cells_of_batch. intros Hnone.
  destruct (filter _ cells) as [|xy rest] eqn:Hf; [done|].
  assert (xy ∈ filter (λ xy, cell_key m tsImages layer xy = Some k) cells) as Hin
    by (rewrite Hf; left).
  apply list_elem_of_filter in Hin as [Hkey Hin]. by destruct (Hnone xy Hin).
Qed.

(** The last layer of a name that occurs. *)
Lemma last_named ls (name : string) :
  name ∈ Layer.Name <$> ls →
  ∃ before l after,
    ls = before ++ l :: after
    ∧ Layer.Name l = name
    ∧ ∀ l', l' ∈ after → Layer.Name l' ≠ Layer.Name l.
Proof.
  induction ls as [|l0 ls IH]; intros Hin; [by inversion Hin|].
  destruct (decide (name ∈ Layer.Name <$> ls)) as [Hlater|Hnot].
  - destruct (IH Hlater) as (before & l & after & -> & Hn & Hlast).
    by exists (l0 :: before), l, after.
  - cbn [fmap list_fmap] in Hin. apply elem_of_cons in Hin as [->|Hin]; [|done].
    exists [], l0, ls. split; [done|split; [done|]].
    intros l' Hl' Heq. apply Hnot, list_elem_of_fmap. eauto.
Qed.

(** [Load] returns a result when every tile of the grid has a tileset. *)
Lemma Load_is_Some m (config : option Config) tsImages :
  (∀ l, l ∈ Map.Layers m →
        tilesets_found m l (raster (Map.Width m) (Map.Height m))) →
  is_Some (Load m config tsImages).
Proof.
  intros Hfound. rewrite Load_run.
  destruct (run_layers_is_Some m (default default_config config) tsImages
              (Map.Layers m) load_init Hfound) as [s ->].
  by eexists.
Qed.

(** C6: a tile whose tileset image is not in the image mapping is left
    out and [Load] goes on; [Load] returns a result whenever every tile has
    a tileset; and in the result a layer has batches only for images that
    were supplied, the batch of image [k] holding six vertices for each
    cell of the grid whose tile belongs to a tileset with image [k]. *)
Theorem Load_missing_image :
  (∀ m c tsImages layer lo x y st gid tileset,
     Layer.Tiles layer !! (x, y) = Some gid →
     FindTileset m gid = Some tileset →
     tsImages !! filepath_Base (Tileset.Source (Tileset.Image tileset)) = None →
     cell m c tsImages layer lo x y st = Some st)
  ∧ (∀ m (config : option Config) tsImages,
       (∀ l, l ∈ Map.Layers m →
             tilesets_found m l (raster (Map.Width m) (Map.Height m))) →
       is_Some (Load m config tsImages))
  ∧ (∀ m (config : option Config) tsImages res before layer after,
       Load m config tsImages = Some res →
       Map.Layers m = before ++ layer :: after →
       (∀ l, l ∈ after → Layer.Name l ≠ Layer.Name layer) →
       ∃ batches,
         res !! Layer.Name layer = Some batches
         ∧ ∀ k,
             let cells :=
               cells_of_batch m tsImages layer k
                 (raster (Map.Width m) (Map.Height m)) in
             (is_Some (batches !! k) → is_Some (tsImages !! k))
             ∧ (is_Some (batches !! k) ↔ cells ≠ [])
             ∧ batch_vertices batches k = (6 * length cells)%nat).
Proof.
  split; [|split].
  - intros. by eapply cell_no_image.
  - apply Load_is_Some.
  - intros m config tsImages res before layer after HLoad Hlayers Hlast.
    rewrite Load_run, Hlayers in HLoad.
    destruct (run_layers _ _ _ _ _) as [s|] eqn:Hrun; [|discriminate].
    injection HLoad as <-.
    destruct (run_layers_last _ _ _ _ _ _ _ _ Hrun Hlast) as (s1 & st & _ & Hst & Hres).
    exists (texObjects st). split; [done|]. intros k cells.
    destruct (compile_layer_batches _ _ _ _ _ _ Hst k) as [Hdom Hcount].
    split; [|done]. rewrite Hdom. apply cells_of_batch_image.
Qed.

(** C7, amended: when every tile has a tileset and no tileset has its
    image in the image mapping, [Load] returns a result without failing;
    the result has one entry for each layer name, and each entry is an
    empty mapping of batches.  It is the empty mapping only for a map
    without layers. *)
Theorem Load_without_images m (config : option Config) tsImages :
  (∀ l x y gid,
     l ∈ Map.Layers m → (x, y) ∈ raster (Map.Width m) (Map.Height m) →
     Layer.Tiles l !! (x, y) = Some gid →
     ∃ tileset,
       FindTileset m gid = Some tileset
       ∧ tsImages !! filepath_Base (Tileset.Source (Tileset.Image tileset)) = None) →
  ∃ res,
    Load m config tsImages = Some res
    ∧ (∀ name,
         res !! name
         = if decide (name ∈ Layer.Name <$> Map.Layers m) then Some ∅ else None)
    ∧ (res = ∅ ↔ Map.Layers m = []).
Proof.
  intros Hno.
  assert (∀ l, l ∈ Map.Layers m →
               tilesets_found m l (raster (Map.Width m) (Map.Height m))) as Hfound.
  { intros l Hl [x y] gid Hxy Hgid. destruct (Hno l x y gid Hl Hxy Hgid) as (ts & -> & _).
    by eexists. }
  assert (∀ l xy k, l ∈ Map.Layers m →
                    xy ∈ raster (Map.Width m) (Map.Height m) →
                    cell_key m tsImages l xy ≠ Some k) as Hkey.
  { intros l [x y] k Hl Hxy Hk.
    apply cell_key_inv in Hk as (gid & ts & rgba & Hgid & Hts & -> & Himg).
    destruct (Hno l x y gid Hl Hxy Hgid) as (ts' & Hts' & Hnone). congruence. }
  rewrite Load_run.
  destruct (run_layers_is_Some m (default default_config config) tsImages
              (Map.Layers m) load_init Hfound) as [s Hrun].
  rewrite Hrun. exists (layers s). split; [done|].
  assert (∀ name,
            layers s !! name
            = if decide (name ∈ Layer.Name <$> Map.Layers m) then Some ∅ else None)
    as Hres.
  { intros name. destruct (decide (name ∈ Layer.Name <$> Map.Layers m)) as [Hin|Hnin].
    - apply list_elem_of_fmap in Hin as (l & -> & Hin).
      destruct (last_named (Map.Layers m) (Layer.Name l))
        as (before & l' & after & Hlayers & Hname & Hlast).
      { apply list_elem_of_fmap. eauto. }
      rewrite <- Hname in *.
      rewrite Hlayers in Hrun.
      destruct (run_layers_last _ _ _ _ _ _ _ _ Hrun Hlast) as (s1 & st & _ & Hst & ->).
      f_equal. apply map_empty. intros k.
      destruct (compile_layer_batches _ _ _ _ _ _ Hst k) as [Hdom _].
      apply eq_None_not_Some. rewrite Hdom. intros Hne. apply Hne.
      apply cells_of_batch_none. intros xy Hxy.
      apply Hkey; [|done]. rewrite Hlayers. apply elem_of_app. right. left.
    - rewrite (run_layers_other _ _ _ _ name _ _ Hrun); [done|].
      intros l Hl <-. apply Hnin, list_elem_of_fmap. eauto. }
  split; [done|]. split.
  - intros Hempty. destruct (Map.Layers m) as [|l ls] eqn:Hls; [done|].
    specialize (Hres (Layer.Name l)). rewrite Hempty, lookup_empty in Hres.
    rewrite decide_True in Hres by (cbn [fmap list_fmap]; left). done.
  - intros Hnil. apply map_empty. intros name. rewrite Hres, Hnil.
    rewrite decide_False; [done|]. cbn [fmap list_fmap]. apply not_elem_of_nil.
Qed.

(** C9: [Load] is deterministic.  A layer is compiled by visiting the
    cells of the grid in one fixed order, column after column (cell (x, y)
    at step x * height + y), and the maps are only looked up: the result of
    a layer is the same for two tile mappings with the same entries on the
    grid, and the result of [Load] is the same for two image mappings
    with the same entries. *)
Theorem Load_deterministic :
  (∀ m c tsImages layer lo,
     compile_layer m c tsImages layer lo
     = run_cells m c tsImages layer lo (raster (Map.Width m) (Map.Height m)) layer_init)
  ∧ (∀ w h x y, 0 <= x < w → 0 <= y < h →
                raster w h !! Z.to_nat (x * h + y) = Some (x, y))
  ∧ (∀ w h, 0 <= w → 0 <= h → length (raster w h) = Z.to_nat (w * h))
  ∧ (∀ m c tsImages layer1 layer2 lo,
       (∀ xy, xy ∈ raster (Map.Width m) (Map.Height m) →
              Layer.Tiles layer1 !! xy = Layer.Tiles layer2 !! xy) →
       compile_layer m c tsImages layer1 lo = compile_layer m c tsImages layer2 lo)
  ∧ (∀ m (config : option Config) tsImages1 tsImages2,
       (∀ k, tsImages1 !! k = tsImages2 !! k) →
       Load m config tsImages1 = Load m config tsImages2).
Proof.
  split; [apply compile_layer_raster|].
  split; [apply raster_lookup|].
  split; [apply raster_length|].
  split.
  - intros m c tsImages layer1 layer2 lo Hsame.
    rewrite !compile_layer_raster. unfold run_cells.
    apply for_each_ext. intros st [x y] Hxy. cbn [fst snd].
    apply cell_layer_ext. by apply Hsame.
  - intros m config tsImages1 tsImages2 Hsame.
    by rewrite (map_eq tsImages1 tsImages2 Hsame).
Qed.

(** C10: when two layers of a map have the same name, the result of
    [Load] has under that name the batches of the last layer of that name,
    compiled on its own at the offset of its position; the batches of the
    earlier layer are not in the result.  The names of the result are the
    names of the layers, each once. *)
Theorem Load_same_name m (config : option Config) tsImages res
    before l1 between l2 after :
  Load m config tsImages = Some res →
  Map.Layers m = before ++ l1 :: between ++ l2 :: after →
  Layer.Name l1 = Layer.Name l2 →
  (∀ l, l ∈ after → Layer.Name l ≠ Layer.Name l2) →
  let c := default default_config config in
  (∃ st2,
     compile_layer m c tsImages l2
       (offset_after (LayerOffset c) (length (before ++ l1 :: between)) (f64_of_int 0))
     = Some st2
     ∧ res !! Layer.Name l1 = Some (texObjects st2))
  ∧ (∀ name, is_Some (res !! name) ↔ ∃ l, l ∈ Map.Layers m ∧ Layer.Name l = name).
Proof.
  intros HLoad Hlayers Hname Hlast c.
  rewrite Load_run in HLoad. fold c in HLoad.
  destruct (run_layers _ _ _ _ _) as [s|] eqn:Hrun; [|discriminate].
  injection HLoad as <-. split.
  - rewrite Hlayers in Hrun.
    change (before ++ l1 :: between ++ l2 :: after)
      with (before ++ (l1 :: between) ++ l2 :: after) in Hrun.
    rewrite app_assoc in Hrun.
    destruct (run_layers_last _ _ _ _ _ _ _ _ Hrun Hlast) as (s1 & st & Hs1 & Hst & Hres).
    exists st. rewrite Hname. split; [|done].
    pose proof (run_layers_offset _ _ _ _ _ _ Hs1) as Hoff.
    cbn [layerOffset load_init] in Hoff. by rewrite <- Hoff.
  - intros name. rewrite (run_layers_names _ _ _ _ name _ _ Hrun).
    cbn [layers load_init]. rewrite lookup_empty.
    split; [intros [[? [=]]|?]; done | by right].
Qed.

End CompilerFacts.

(** C3, amended: for every tile that [Load] places at grid cell (x, y),
    the six new vertices of its batch are the corners of the card sent
    through orientation * translation, where the translation has horizontal
    axis 1 = x * map tile width + half the tile width of the owning tileset,
    vertical axis = layerOffset + tileOffset, and horizontal axis 2 = (map
    height in tiles - y) * map tile height - half the tile height of the owning
    tileset.  When the tiles of the tileset have the size of the tiles of the
    map, this is the translation of the specification; for the 2x1 example map
    with 32x32 tiles, the tile at (0, 0) has its center at 16 and 16. *)
Theorem tile_placement :
  (∀ (F : FloatOps) (L : Lmath) (T : Tmx) m c tsImages layer lo visited st
     x y gid tileset rgba,
     let k := filepath_Base (Tileset.Source (Tileset.Image tileset)) in
     run_cells m c tsImages layer lo visited layer_init = Some st →
     Layer.Tiles layer !! (x, y) = Some gid →
     FindTileset m gid = Some tileset →
     tsImages !! k = Some rgba →
     ∃ st',
       cell m c tsImages layer lo x y st = Some st'
       ∧ gfx.Vertices (batch_mesh (texObjects st') k)
         = gfx.Vertices (batch_mesh (texObjects st) k)
           ++ (transform_vertex
                 (Mat4_Mul (flip_of gid)
                    (Mat4FromTranslation
                       {| lmath.vx :=
                            f64_add (f64_of_int (int_mul x (Map.TileWidth m)))
                              (f64_of_f32
                                 (f32_div (f32_of_int (Tileset.Width tileset))
                                    (f32_of_int 2)));
                          lmath.vy := f64_add lo (tileOffset st);
                          lmath.vz :=
                            f64_sub
                              (f64_of_int
                                 (int_mul (int_sub (Map.Height m) y) (Map.TileHeight m)))
                              (f64_of_f32
                                 (f32_div (f32_of_int (Tileset.Height tileset))
                                    (f32_of_int 2))) |}))
               <$> card_vertices (f32_neg (halfWidth tileset)) (halfWidth tileset)
                     (f32_neg (halfHeight tileset)) (halfHeight tileset)
                     (f32_of_int 0)))
  ∧ (∀ (F : FloatOps) m tileset x y lo t,
       Tileset.Width tileset = Map.TileWidth m →
       Tileset.Height tileset = Map.TileHeight m →
       move_of m tileset x y lo t = move_spec m x y lo t)
  ∧ (∀ lo t : float64 (FloatOps := ieee_floats),
       move_of (F := ieee_floats) Demo.map Demo.tileset 0 0 lo t
       = @lmath.Build_Vec3 ieee_floats (IEEE.f64 16) (f64_add lo t) (IEEE.f64 16)).
Proof.
  split; [|split].
  - intros F L T m c tsImages layer lo visited st x y gid tileset rgba k
      Hrun Hgid Hts Himg.
    pose proof (reached_one_mesh _ _ _ _ _ _ _ Hrun) as Hone.
    destruct (cell_appends m c tsImages layer lo x y st gid tileset rgba
                Hone Hgid Hts Himg) as (st' & Hcell & Hverts & _).
    exists st'. split; [exact Hcell | exact Hverts].
  - intros F m tileset x y lo t. apply move_of_spec.
  - intros lo t. unfold move_of. f_equal.
Qed.

(** ** The offsets *)

Section OffsetFacts.
Context {F : FloatOps} {L : Lmath} {T : Tmx}.
Implicit Types (m : Map.t) (c : Config) (tsImages : gmap string image.RGBA)
  (layer : Layer.t).

Lemma not_placed_filter m tsImages layer (cells : list Coord) :
  (∀ xy, xy ∈ cells → ¬ placed m tsImages layer xy) →
  filter (placed m tsImages layer) cells = [].
Proof.
  intros Hnone.
  destruct (filter _ cells) as [|xy rest] eqn:Hf; [done|].
  assert (xy ∈ filter (placed m tsImages layer) cells) as Hin by (rewrite Hf; left).
  apply list_elem_of_filter in Hin as [Hpl Hin]. by destruct (Hnone xy Hin).
Qed.

(** One layer more: one subtraction of [LayerOffset]. *)
Lemma base_after_snoc m c tsImages earlier layer lo lo' :
  base_after m c tsImages earlier = Some lo →
  base_after m c tsImages (earlier ++ [layer]) = Some lo' →
  lo' = f64_sub lo (LayerOffset c).
Proof.
  unfold base_after, run_layers. rewrite for_each_snoc.
  destruct (for_each _ earlier load_init) as [s1|]; [|discriminate].
  cbn [mbind option_bind]. intros [= <-].
  destruct (layer_step m c tsImages s1 layer) as [s2|] eqn:Hstep; [|discriminate].
  intros [= <-].
  by destruct (layer_step_inv _ _ _ _ _ _ Hstep) as (st & _ & _ & ->).
Qed.

(** From one placed tile to the next: one subtraction of [TileOffset]. *)
Lemma vertical_after_next m c tsImages layer lo visited xy between ya yb :
  placed m tsImages layer xy →
  (∀ xy', xy' ∈ between → ¬ placed m tsImages layer xy') →
  vertical_after m c tsImages layer lo visited = Some ya →
  vertical_after m c tsImages layer lo (visited ++ xy :: between) = Some yb →
  ∃ t, ya = f64_add lo t ∧ yb = f64_add lo (f64_sub t (TileOffset c)).
Proof.
  destruct xy as [x y]. intros Hpl Hnone.
  unfold vertical_after, run_cells. rewrite for_each_app.
  destruct (for_each _ visited layer_init) as [sta|] eqn:Hruna; [|discriminate].
  cbn [mbind option_bind for_each fst snd]. intros [= <-].
  destruct (cell m c tsImages layer lo x y sta) as [st1|] eqn:Hcell; [|discriminate].
  cbn [mbind option_bind].
  destruct (for_each _ between st1) as [stb|] eqn:Hrunb; [|discriminate].
  intros [= <-].
  pose proof (reached_one_mesh m c tsImages layer lo visited sta Hruna) as Hone.
  destruct (cell_summary _ _ _ _ _ _ _ _ _ Hone Hcell) as [Hone1 Hstep].
  apply placed_cell_key in Hpl as [k Hkey]. rewrite Hkey in Hstep.
  destruct Hstep as (_ & _ & _ & Ht1).
  destruct (run_cells_summary m c tsImages layer lo between st1 stb Hone1 Hrunb)
    as (_ & _ & _ & Htb).
  rewrite (not_placed_filter _ _ _ _ Hnone) in Htb.
  change (tileOffset stb = tileOffset st1) in Htb.
  exists (tileOffset sta). by rewrite Htb, Ht1.
Qed.

End OffsetFacts.

(** C4, amended: the first layer is at vertical offset 0 and the first
    tile of a layer at the offset of its layer plus 0; the offset of each
    further layer is the one of the layer before minus [Config.LayerOffset],
    and the vertical coordinate of each further tile that is placed in a
    layer is layerOffset + (tileOffset - [Config.TileOffset]) where the tile
    placed before it is at layerOffset + tileOffset, all in float64.  In
    exact arithmetic this is the value before minus exactly the configured
    offset, which is strictly less when the configured offset is positive. *)
Theorem offsets_decrease :
  (∀ (F : FloatOps) (L : Lmath) (T : Tmx) m c tsImages,
     base_after m c tsImages [] = Some (f64_of_int 0)
     ∧ (∀ layer lo,
          vertical_after m c tsImages layer lo []
          = Some (f64_add lo (f64_of_int 0)))
     ∧ (∀ earlier layer lo lo',
          base_after m c tsImages earlier = Some lo →
          base_after m c tsImages (earlier ++ [layer]) = Some lo' →
          lo' = f64_sub lo (LayerOffset c))
     ∧ (∀ layer lo visited xy between ya yb,
          placed m tsImages layer xy →
          (∀ xy', xy' ∈ between → ¬ placed m tsImages layer xy') →
          vertical_after m c tsImages layer lo visited = Some ya →
          vertical_after m c tsImages layer lo (visited ++ xy :: between) = Some yb →
          ∃ t, ya = f64_add lo t ∧ yb = f64_add lo (f64_sub t (TileOffset c))))
  ∧ (∀ (L : Lmath (F := exact_floats)) (T : Tmx) m
       (c : Config (F := exact_floats)) tsImages,
       (∀ earlier layer lo lo',
          base_after m c tsImages earlier = Some lo →
          base_after m c tsImages (earlier ++ [layer]) = Some lo' →
          (lo' == lo - LayerOffset c)%Q ∧ (0 < LayerOffset c → lo' < lo)%Q)
       ∧ (∀ layer lo visited xy between ya yb,
            placed m tsImages layer xy →
            (∀ xy', xy' ∈ between → ¬ placed m tsImages layer xy') →
            vertical_after m c tsImages layer lo visited = Some ya →
            vertical_after m c tsImages layer lo (visited ++ xy :: between) = Some yb →
            (yb == ya - TileOffset c)%Q ∧ (0 < TileOffset c → yb < ya)%Q)).
Proof.
  split.
  - intros F L T m c tsImages. split; [reflexivity|]. split; [reflexivity|].
    split; [apply base_after_snoc | apply vertical_after_next].
  - intros L T m c tsImages. split.
    + intros earlier layer lo lo' Hlo Hlo'.
      rewrite (base_after_snoc _ _ _ _ _ _ _ Hlo Hlo').
      cbn [f64_sub exact_floats]. split; [reflexivity | intros Hpos; lra].
    + intros layer lo visited xy between ya yb Hpl Hnone Hya Hyb.
      destruct (vertical_after_next _ _ _ _ _ _ _ _ _ _ Hpl Hnone Hya Hyb)
        as (t & -> & ->).
      cbn [f64_add f64_sub exact_floats]. split; [ring | intros Hpos; lra].
Qed.

(** ** The inset of the texture coordinates *)

(** On a square atlas the inset is the one of the specification. *)
Lemma cardUV_square {F : FloatOps} (rect tex : image.Rectangle) :
  image.Dx tex = image.Dy tex → cardUV rect tex = insetUV_spec rect tex.
Proof. intros Hsq. unfold cardUV, insetUV_spec. by rewrite Hsq. Qed.

(** C1: the specification asks for an inset of 1/atlasWidth on the
    horizontal edges and of 1/atlasHeight on the vertical edges.  The
    code computes [halfTexUnitY] from the width: on a 64x32 atlas the tile
    with pixel rectangle (0,0)-(32,32) gets the vertical coordinates 1/64 and
    63/64 where the specification gives 1/32 and 31/32.  The horizontal
    coordinates, 1/64 and 31/64, are those of the specification, and on a
    square atlas the two agree. *)
Theorem cardUV_vertical_inset :
  let rect := image.Rect 0 0 32 32 in
  let tex := image.Rect 0 0 64 32 in
  cardUV (F := ieee_floats) rect tex
  = (IEEE.ratio32 1 64, IEEE.ratio32 1 64, IEEE.ratio32 31 64, IEEE.ratio32 63 64)
  ∧ insetUV_spec (F := ieee_floats) rect tex
    = (IEEE.ratio32 1 64, IEEE.ratio32 1 32, IEEE.ratio32 31 64, IEEE.ratio32 31 32)
  ∧ cardUV (F := ieee_floats) rect tex ≠ insetUV_spec (F := ieee_floats) rect tex
  ∧ IEEE.ratio32 1 64 = S754_finite false 8388608 (-29)
  ∧ IEEE.ratio32 1 32 = S754_finite false 8388608 (-28).
Proof.
  cbv zeta. repeat split; try (vm_compute; reflexivity).
  intros Heq. vm_compute in Heq. discriminate.
Qed.

(** ** Point lists *)

Lemma Split_length (s : string) (sep : ascii) :
  length (strings.Split s sep) = S (count_byte sep s).
Proof.
  unfold count_byte. induction s as [|c s IH]; [reflexivity|].
  cbn [strings.Split list_ascii_of_string]. rewrite filter_cons.
  destruct (Ascii.eqb_spec c sep) as [->|Hne].
  - rewrite decide_True by done. cbn [length]. by rewrite IH.
  - rewrite decide_False by done.
    destruct (strings.Split s sep) as [|piece pieces]; [discriminate|].
    cbn [length] in *. lia.
Qed.

Lemma toPoints_step_point (points : list Point) (pair : string) :
  toPoints_step points pair = points ++ option_list (point_of_pair pair).
Proof.
  unfold toPoints_step, point_of_pair.
  destruct (strings.Split _ ",") as [|xy0 [|xy1 [|xy2 rest]]]; cbn [option_list];
    by rewrite ?app_nil_r.
Qed.

Lemma toPoints_fold (pairs : list string) :
  ∀ points, foldl toPoints_step points pairs = points ++ omap point_of_pair pairs.
Proof.
  induction pairs as [|pair pairs IH]; intros points; cbn [foldl omap list_omap].
  { by rewrite app_nil_r. }
  rewrite IH, toPoints_step_point, <- app_assoc.
  by destruct (point_of_pair pair).
Qed.

(** C8, amended: a polygon or polyline point list always yields a
    list of points and the object its value.  Of the pairs between spaces,
    those that do not have exactly two fields between commas are dropped
    and the others are kept in order; a field that is not a number does not
    drop the point: its coordinate is 0. *)
Theorem toPoints_lenient :
  (∀ x, toPoints x = omap point_of_pair (strings.Split (Data x) " "))
  ∧ (∀ pair, is_Some (point_of_pair pair)
             ↔ count_byte "," (strings.TrimSpace pair) = 1%nat)
  ∧ (∀ pair xy0 xy1,
       strings.Split (strings.TrimSpace pair) "," = [xy0; xy1] →
       point_of_pair pair
       = Some {| PointX := (strconv.Atoi (strings.TrimSpace xy0)).1;
                 PointY := (strconv.Atoi (strings.TrimSpace xy1)).1 |})
  ∧ (∀ field, strconv.parse field = None → strconv.Atoi field = (0, true))
  ∧ (∀ x, ObjEllipse x = None → Data (ObjPolygon x) ≠ EmptyString →
          toValue x
          = ValuePolygon {| PolygonX := ObjX x; PolygonY := ObjY x;
                            PolygonPoints := toPoints (ObjPolygon x) |})
  ∧ (∀ x, ObjEllipse x = None → Data (ObjPolygon x) = EmptyString →
          Data (ObjPolyline x) ≠ EmptyString →
          toValue x
          = ValuePolyline {| PolylineX := ObjX x; PolylineY := ObjY x;
                             PolylinePoints := toPoints (ObjPolyline x) |}).
Proof.
  repeat apply conj.
  - intros x. unfold toPoints. by rewrite toPoints_fold.
  - intros pair. unfold point_of_pair.
    pose proof (Split_length (strings.TrimSpace pair) ",") as Hlen.
    destruct (strings.Split _ ",") as [|xy0 [|xy1 [|xy2 rest]]]; cbn [length] in Hlen.
    + split; [by intros [? ?] | lia].
    + split; [by intros [? ?] | lia].
    + split; [intros _; lia | by eexists].
    + split; [by intros [? ?] | lia].
  - intros pair xy0 xy1 Hsplit. unfold point_of_pair. by rewrite Hsplit.
  - intros field Hparse. unfold strconv.Atoi. by rewrite Hparse.
  - intros x Hell Hpoly. unfold toValue. rewrite Hell.
    destruct (decide (0 < String.length (Data (ObjPolygon x)))%nat) as [_|Hn];
      [reflexivity|].
    destruct (Data (ObjPolygon x)); [done|]. cbn in Hn. lia.
  - intros x Hell Hpoly Hline. unfold toValue. rewrite Hell, Hpoly.
    rewrite decide_False by (cbn; lia).
    destruct (decide (0 < String.length (Data (ObjPolyline x)))%nat) as [_|Hn];
      [reflexivity|].
    destruct (Data (ObjPolyline x)); [done|]. cbn in Hn. lia.
Qed.

(** C8, counterexample: the pair "a,b" of the list "1,2 a,b 3,4" has
    no numeric coordinate and is not dropped: it is the point (0, 0). *)
Lemma toPoints_keeps_malformed :
  toPoints {| Data := "1,2 a,b 3,4" |}
  = [ {| PointX := 1; PointY := 2 |}; {| PointX := 0; PointY := 0 |};
      {| PointX := 3; PointY := 4 |} ]
  ∧ toPoints_spec {| Data := "1,2 a,b 3,4" |}
    = [ {| PointX := 1; PointY := 2 |}; {| PointX := 3; PointY := 4 |} ]
  ∧ toPoints {| Data := "1,2 a,b 3,4" |} ≠ toPoints_spec {| Data := "1,2 a,b 3,4" |}.
Proof.
  repeat apply conj; try (vm_compute; reflexivity).
  intros Heq. vm_compute in Heq. discriminate.
Qed.

(** * Further properties *)

(** ** The sets of texture coordinates *)

Section CardSets.
Context {F : FloatOps}.

Lemma addv_sets depth (m : gfx.Mesh) x y :
  gfx.TexCoords (addv depth m x y) = gfx.TexCoords m.
Proof. reflexivity. Qed.

Lemma addt_sets (m : gfx.Mesh) u v :
  gfx.TexCoords (addt m u v)
  = {| gfx.Slice := uv_channel m ++ [ {| gfx.tu := u; gfx.tv := v |} ] |}
    :: tail (gfx.TexCoords m).
Proof.
  unfold addt, uv_channel. destruct (gfx.TexCoords m) as [|s rest]; reflexivity.
Qed.

Lemma addt_later_sets (m : gfx.Mesh) u v :
  tail (gfx.TexCoords (addt m u v)) = tail (gfx.TexCoords m).
Proof. by rewrite addt_sets. Qed.

Lemma appendCard_sets m l r b t depth rect tex :
  gfx.TexCoords (appendCard m l r b t depth rect tex)
  = {| gfx.Slice := uv_channel m ++ card_uvs rect tex |} :: tail (gfx.TexCoords m).
Proof.
  unfold appendCard, card_uvs. destruct (cardUV rect tex) as [[[u0 v0] u1] v1].
  rewrite addt_sets, !addt_later_sets, !addv_sets, !addt_uv, !addv_uv, <- !app_assoc.
  reflexivity.
Qed.

End CardSets.

(** ** The result of a cell, in full *)

Section LoadFacts.
Context {F : FloatOps} {L : Lmath} {T : Tmx}.
Implicit Types (m : Map.t) (c : Config) (tsImages : gmap string image.RGBA)
  (layer : Layer.t) (st : LayerState) (objs : gmap string gfx.Object)
  (xy : Coord) (cells : list Coord) (k : string) (s : LoadState)
  (ls : list Layer.t).

(** The object of a batch after a tile is added to it. *)
Lemma cell_placed_sets m c tsImages layer lo x y st gid tileset rgba mesh meshes :
  let k := filepath_Base (Tileset.Source (Tileset.Image tileset)) in
  let obj := batch_object (texObjects st) k rgba in
  Layer.Tiles layer !! (x, y) = Some gid →
  FindTileset m gid = Some tileset →
  tsImages !! k = Some rgba →
  gfx.Meshes obj = mesh :: meshes →
  cell m c tsImages layer lo x y st
  = Some {| texObjects :=
              <[k := {| gfx.ObjShader := gfx.ObjShader obj;
                        gfx.ObjState := gfx.ObjState obj;
                        gfx.Meshes :=
                          {| gfx.Vertices :=
                               gfx.Vertices mesh
                               ++ card_in_world m tileset gid x y lo (tileOffset st);
                             gfx.TexCoords :=
                               {| gfx.Slice :=
                                    uv_channel mesh ++ card_uvs_of m tileset gid rgba |}
                               :: tail (gfx.TexCoords mesh) |} :: meshes;
                        gfx.Textures := gfx.Textures obj |}]> (texObjects st);
            tileOffset := f64_sub (tileOffset st) (TileOffset c) |}.
Proof.
  intros k obj Hgid Hts Himg Hmesh. unfold cell. rewrite Hgid, Hts.
  cbn [mbind option_bind]. fold k. rewrite Himg.
  set (r := TilesetRect m tileset _ _ true gid).
  set (hw := halfWidth tileset). set (hh := halfHeight tileset).
  set (mesh1 := appendCard mesh (f32_neg hw) hw (f32_neg hh) hh (f32_of_int 0) r
                  (image.Bounds rgba)).
  set (trans := Mat4_Mul (flip_of gid)
                  (Mat4FromTranslation (move_of m tileset x y lo (tileOffset st)))).
  set (card := card_vertices (f32_neg hw) hw (f32_neg hh) hh (f32_of_int 0)).
  assert (transform_card trans (length (gfx.Vertices mesh))
            (length (gfx.Vertices mesh1)) (gfx.Vertices mesh1)
          = gfx.Vertices mesh ++ (transform_vertex trans <$> card)) as Htc.
  { unfold mesh1. rewrite appendCard_vertices. apply transform_card_appended. }
  assert (gfx.TexCoords mesh1
          = {| gfx.Slice := uv_channel mesh ++ card_uvs_of m tileset gid rgba |}
            :: tail (gfx.TexCoords mesh)) as Hsets
    by apply appendCard_sets.
  unfold obj, batch_object in *.
  destruct (texObjects st !! k) as [o|] eqn:Hobj;
    cbn [default from_option id] in *; cbv beta iota zeta;
    rewrite Hmesh; fold mesh1; rewrite Htc, Hsets.
  - reflexivity.
  - rewrite insert_insert_eq. reflexivity.
Qed.

Lemma batch_object_mesh objs k rgba :
  one_mesh objs → gfx.Meshes (batch_object objs k rgba) = [batch_mesh objs k].
Proof.
  intros Hone. unfold batch_object, batch_mesh.
  destruct (objs !! k) as [o|] eqn:Hobj; cbn [default from_option id]; [|reflexivity].
  destruct (Hone k o Hobj) as [mesh Hmesh]. by rewrite Hmesh.
Qed.

Lemma batch_mesh_insert objs k k' obj :
  batch_mesh (<[k := obj]> objs) k'
  = if decide (k = k') then default gfx.NewMesh (head (gfx.Meshes obj))
    else batch_mesh objs k'.
Proof.
  unfold batch_mesh. destruct (decide (k = k')) as [->|Hne].
  - by rewrite lookup_insert_eq.
  - by rewrite lookup_insert_ne.
Qed.

Lemma cell_tile_Some m tsImages layer xy gid tileset rgba :
  cell_tile m tsImages layer xy = Some (gid, tileset, rgba)
  ↔ Layer.Tiles layer !! xy = Some gid
    ∧ FindTileset m gid = Some tileset
    ∧ tsImages !! filepath_Base (Tileset.Source (Tileset.Image tileset)) = Some rgba.
Proof.
  unfold cell_tile. split.
  - intros Htile.
    destruct (Layer.Tiles layer !! xy) as [gid'|]; [|discriminate].
    cbn [mbind option_bind] in Htile.
    destruct (FindTileset m gid') as [ts|] eqn:Hts; [|discriminate].
    cbn [mbind option_bind] in Htile.
    destruct (tsImages !! _) as [rgba'|] eqn:Himg; [|discriminate].
    cbn [mbind option_bind] in Htile. by simplify_eq.
  - intros (-> & Hts & Himg). cbn [mbind option_bind]. rewrite Hts.
    cbn [mbind option_bind]. by rewrite Himg.
Qed.

(** A cell without a compiled tile leaves the state as it is, unless its
    tile has no tileset. *)
Lemma cell_tile_None m c tsImages layer lo x y st st' :
  cell_tile m tsImages layer (x, y) = None →
  cell m c tsImages layer lo x y st = Some st' → st' = st.
Proof.
  unfold cell_tile. intros Htile Hcell.
  destruct (Layer.Tiles layer !! (x, y)) as [gid|] eqn:Hgid.
  2:{ rewrite cell_no_tile in Hcell by done. by simplify_eq. }
  cbn [mbind option_bind] in Htile.
  destruct (FindTileset m gid) as [tileset|] eqn:Hts.
  2:{ by rewrite (cell_nil_tileset _ _ _ _ _ _ _ _ gid) in Hcell. }
  cbn [mbind option_bind] in Htile.
  destruct (tsImages !! _) as [rgba|] eqn:Himg; [discriminate|].
  rewrite (cell_no_image _ _ _ _ _ _ _ _ gid tileset) in Hcell by done.
  by simplify_eq.
Qed.

(** *** The contents of the batches *)

Lemma run_cells_contents m c tsImages layer lo cells :
  ∀ st st',
    one_mesh (texObjects st) →
    run_cells m c tsImages layer lo cells st = Some st' →
    ∀ k,
      gfx.Vertices (batch_mesh (texObjects st') k)
      = gfx.Vertices (batch_mesh (texObjects st) k)
        ++ batch_cards m c tsImages layer lo k cells (tileOffset st)
      ∧ uv_channel (batch_mesh (texObjects st') k)
        = uv_channel (batch_mesh (texObjects st) k)
          ++ batch_uvs m tsImages layer k cells.
Proof.
  induction cells as [|[x y] cells IH]; intros st st' Hone Hrun k.
  { change (Some st = Some st') in Hrun. injection Hrun as <-.
    cbn [batch_cards batch_uvs]. by rewrite !app_nil_r. }
  rewrite run_cells_cons in Hrun.
  destruct (cell m c tsImages layer lo x y st) as [st1|] eqn:Hcell; [|discriminate].
  cbn [mbind option_bind] in Hrun.
  destruct (cell_summary _ _ _ _ _ _ _ _ _ Hone Hcell) as [Hone1 _].
  destruct (IH st1 st' Hone1 Hrun k) as [Hv Hu]. rewrite Hv, Hu.
  cbn [batch_cards batch_uvs].
  destruct (cell_tile m tsImages layer (x, y)) as [[[gid tileset] rgba]|] eqn:Htile.
  2:{ by rewrite (cell_tile_None _ _ _ _ _ _ _ _ _ Htile Hcell). }
  apply cell_tile_Some in Htile as (Hgid & Hts & Himg).
  rewrite (cell_placed_sets m c tsImages layer lo x y st gid tileset rgba _ []
             Hgid Hts Himg (batch_object_mesh _ _ _ Hone)) in Hcell.
  injection Hcell as <-. cbn [texObjects tileOffset fst snd].
  rewrite batch_mesh_insert.
  destruct (decide (filepath_Base (Tileset.Source (Tileset.Image tileset)) = k))
    as [->|Hne].
  - cbn [gfx.Meshes head default from_option id gfx.Vertices uv_channel gfx.TexCoords
         gfx.Slice].
    by rewrite <- !app_assoc.
  - done.
Qed.

(** *** The shape of the batches *)

Lemma shaped_one_mesh tsImages objs : batches_shaped tsImages objs → one_mesh objs.
Proof.
  intros Hshaped k obj Hobj.
  destruct (Hshaped k obj Hobj) as (rgba & mesh & n & _ & _ & _ & _ & Hmesh & _).
  by exists mesh.
Qed.

Lemma cell_shaped m c tsImages layer lo x y st st' :
  batches_shaped tsImages (texObjects st) →
  cell m c tsImages layer lo x y st = Some st' →
  batches_shaped tsImages (texObjects st').
Proof.
  intros Hshaped Hcell.
  destruct (cell_tile m tsImages layer (x, y)) as [[[gid tileset] rgba]|] eqn:Htile.
  2:{ by rewrite (cell_tile_None _ _ _ _ _ _ _ _ _ Htile Hcell). }
  apply cell_tile_Some in Htile as (Hgid & Hts & Himg).
  pose proof (shaped_one_mesh _ _ Hshaped) as Hone.
  rewrite (cell_placed_sets m c tsImages layer lo x y st gid tileset rgba _ []
             Hgid Hts Himg (batch_object_mesh _ _ _ Hone)) in Hcell.
  injection Hcell as <-. cbn [texObjects].
  set (k := filepath_Base (Tileset.Source (Tileset.Image tileset))) in *.
  intros k' obj'. destruct (decide (k' = k)) as [->|Hne].
  2:{ rewrite lookup_insert_ne by done. apply Hshaped. }
  rewrite lookup_insert_eq. intros [= <-].
  unfold batch_object, batch_mesh.
  destruct (texObjects st !! k) as [o|] eqn:Hobj; cbn [default from_option id].
  - destruct (Hshaped k o Hobj)
      as (rgba0 & mesh & n & Himg0 & Hshader & Hstate & Htex & Hmesh & Hsets & Hlv & Hlu).
    rewrite Hmesh. cbn [head default from_option id].
    eexists rgba0, _, (S n). cbn [gfx.ObjShader gfx.ObjState gfx.Textures gfx.Meshes].
    split; [done|]. split; [done|]. split; [done|]. split; [done|].
    split; [reflexivity|].
    cbn [gfx.TexCoords gfx.Vertices uv_channel gfx.Slice]. rewrite Hsets.
    split; [reflexivity|].
    rewrite !length_app, Hlv, Hlu. cbn [length card_in_world]. split; [|]; cbn; lia.
  - eexists rgba, _, 0%nat.
    cbn [gfx.ObjShader gfx.ObjState gfx.Textures gfx.Meshes new_object].
    split; [done|]. split; [done|]. split; [done|]. split; [done|].
    split; [reflexivity|]. split; [reflexivity|]. split; reflexivity.
Qed.

Lemma run_cells_shaped m c tsImages layer lo cells :
  ∀ st st',
    batches_shaped tsImages (texObjects st) →
    run_cells m c tsImages layer lo cells st = Some st' →
    batches_shaped tsImages (texObjects st').
Proof.
  induction cells as [|[x y] cells IH]; intros st st' Hshaped Hrun.
  { change (Some st = Some st') in Hrun. by injection Hrun as <-. }
  rewrite run_cells_cons in Hrun.
  destruct (cell m c tsImages layer lo x y st) as [st1|] eqn:Hcell; [|discriminate].
  cbn [mbind option_bind] in Hrun.
  eapply IH; [|exact Hrun]. by eapply cell_shaped.
Qed.

Lemma compile_layer_shaped m c tsImages layer lo st :
  compile_layer m c tsImages layer lo = Some st →
  batches_shaped tsImages (texObjects st).
Proof.
  rewrite compile_layer_raster. apply run_cells_shaped.
  intros k obj. cbn [texObjects layer_init]. by rewrite lookup_empty.
Qed.

Lemma run_layers_shaped m c tsImages ls :
  ∀ s s',
    (∀ name batches, layers s !! name = Some batches → batches_shaped tsImages batches) →
    run_layers m c tsImages ls s = Some s' →
    ∀ name batches, layers s' !! name = Some batches → batches_shaped tsImages batches.
Proof.
  unfold run_layers.
  induction ls as [|l ls IH]; intros s s' Hinv Hrun; simpl in Hrun; [by simplify_eq|].
  destruct (layer_step m c tsImages s l) as [s1|] eqn:Hstep; [|discriminate].
  simpl in Hrun. apply (IH s1 s'); [|done].
  destruct (layer_step_inv _ _ _ _ _ _ Hstep) as (st & Hst & -> & _).
  intros name batches. destruct (decide (name = Layer.Name l)) as [->|Hne].
  - rewrite lookup_insert_eq. intros [= <-]. by eapply compile_layer_shaped.
  - rewrite lookup_insert_ne by done. apply Hinv.
Qed.


(** *** The cells of the grid *)

Lemma elem_of_raster (w h x y : Z) :
  (x, y) ∈ raster w h ↔ 0 <= x < w ∧ 0 <= y < h.
Proof.
  unfold raster. rewrite list_elem_of_bind. split.
  - intros (x' & Hy & Hx). apply list_elem_of_bind in Hy as (y' & Hxy & Hy).
    apply list_elem_of_singleton in Hxy. simplify_eq.
    apply elem_of_seqZ in Hx, Hy. lia.
  - intros [Hx Hy]. exists x. split; [|apply elem_of_seqZ; lia].
    apply list_elem_of_bind. exists y. split; [by left|apply elem_of_seqZ; lia].
Qed.

Lemma raster_empty (w h : Z) : w <= 0 ∨ h <= 0 → raster w h = [].
Proof.
  intros Hempty. destruct (raster w h) as [|[x y] cells] eqn:Hcells; [done|].
  assert ((x, y) ∈ raster w h) as Hin by (rewrite Hcells; left).
  apply elem_of_raster in Hin. lia.
Qed.

(** *** Failure *)

Lemma run_cells_found m c tsImages layer lo cells :
  ∀ st, is_Some (run_cells m c tsImages layer lo cells st) →
        tilesets_found m layer cells.
Proof.
  induction cells as [|[x y] cells IH]; intros st [st' Hrun] xy gid Hin Hgid.
  { by apply elem_of_nil in Hin. }
  rewrite run_cells_cons in Hrun.
  destruct (cell m c tsImages layer lo x y st) as [st1|] eqn:Hcell; [|discriminate].
  cbn [mbind option_bind] in Hrun.
  apply elem_of_cons in Hin as [->|Hin].
  - destruct (FindTileset m gid) as [tileset|] eqn:Hts; [by eexists|].
    by rewrite (cell_nil_tileset _ _ _ _ _ _ _ _ gid) in Hcell.
  - by apply (IH st1 (ex_intro _ st' Hrun) xy gid).
Qed.

Lemma run_layers_found m c tsImages ls :
  ∀ s, is_Some (run_layers m c tsImages ls s) →
       ∀ l, l ∈ ls → tilesets_found m l (raster (Map.Width m) (Map.Height m)).
Proof.
  unfold run_layers.
  induction ls as [|l ls IH]; intros s [s' Hrun] l' Hin; [by apply elem_of_nil in Hin|].
  simpl in Hrun.
  destruct (layer_step m c tsImages s l) as [s1|] eqn:Hstep; [|discriminate].
  simpl in Hrun.
  apply elem_of_cons in Hin as [->|Hin]; [|by apply (IH s1 (ex_intro _ s' Hrun))].
  destruct (layer_step_inv _ _ _ _ _ _ Hstep) as (st & Hst & _).
  rewrite compile_layer_raster in Hst.
  by apply (run_cells_found m c tsImages l (layerOffset s) _ layer_init); exists st.
Qed.

(** *** The entries of the result *)

(** The entry of a layer name: the batches of the last layer of that
    name, compiled at the offset of its position. *)
Lemma Load_entry m (config : option Config) tsImages res before layer after :
  Load m config tsImages = Some res →
  Map.Layers m = before ++ layer :: after →
  (∀ l, l ∈ after → Layer.Name l ≠ Layer.Name layer) →
  let c := default default_config config in
  ∃ st,
    compile_layer m c tsImages layer
      (offset_after (LayerOffset c) (length before) (f64_of_int 0)) = Some st
    ∧ res !! Layer.Name layer = Some (texObjects st).
Proof.
  intros HLoad Hlayers Hlast c.
  rewrite Load_run in HLoad. fold c in HLoad.
  destruct (run_layers _ _ _ _ _) as [s|] eqn:Hrun; [|discriminate].
  injection HLoad as <-. rewrite Hlayers in Hrun.
  destruct (run_layers_last _ _ _ _ _ _ _ _ Hrun Hlast) as (s1 & st & Hs1 & Hst & Hres).
  exists st. split; [|done].
  pose proof (run_layers_offset _ _ _ _ _ _ Hs1) as Hoff.
  cbn [layerOffset load_init] in Hoff. by rewrite <- Hoff.
Qed.

(** Every entry of the result is the result of compiling a layer. *)
Lemma Load_entry_inv m (config : option Config) tsImages res name batches :
  Load m config tsImages = Some res →
  res !! name = Some batches →
  ∃ before layer after st,
    Map.Layers m = before ++ layer :: after
    ∧ Layer.Name layer = name
    ∧ (∀ l, l ∈ after → Layer.Name l ≠ name)
    ∧ compile_layer m (default default_config config) tsImages layer
        (offset_after (LayerOffset (default default_config config)) (length before)
           (f64_of_int 0)) = Some st
    ∧ batches = texObjects st.
Proof.
  intros HLoad Hres.
  assert (name ∈ Layer.Name <$> Map.Layers m) as Hin.
  { rewrite Load_run in HLoad.
    destruct (run_layers _ _ _ _ _) as [s|] eqn:Hrun; [|discriminate].
    injection HLoad as <-.
    destruct (proj1 (run_layers_names _ _ _ _ name _ _ Hrun)) as [[? Hnone]|(l & Hl & <-)].
    - by eexists.
    - cbn [layers load_init] in Hnone. by rewrite lookup_empty in Hnone.
    - apply list_elem_of_fmap. eauto. }
  destruct (last_named _ _ Hin) as (before & layer & after & Hlayers & Hname & Hlast).
  destruct (Load_entry _ _ _ _ _ _ _ HLoad Hlayers Hlast) as (st & Hst & Hentry).
  exists before, layer, after, st. rewrite Hname in Hentry, Hlast.
  split; [done|]. split; [done|]. split; [done|]. split; [done|]. congruence.
Qed.

(** *** What [Load] reads of the images *)

Lemma cell_images_ext m c tsImages1 tsImages2 layer lo x y st :
  (∀ gid tileset,
     Layer.Tiles layer !! (x, y) = Some gid →
     FindTileset m gid = Some tileset →
     tsImages1 !! filepath_Base (Tileset.Source (Tileset.Image tileset))
     = tsImages2 !! filepath_Base (Tileset.Source (Tileset.Image tileset))) →
  cell m c tsImages1 layer lo x y st = cell m c tsImages2 layer lo x y st.
Proof.
  intros Hsame. unfold cell.
  destruct (Layer.Tiles layer !! (x, y)) as [gid|] eqn:Hgid; [|reflexivity].
  destruct (FindTileset m gid) as [tileset|] eqn:Hts; [|reflexivity].
  cbn [mbind option_bind]. by rewrite (Hsame gid tileset).
Qed.

Lemma run_layers_images_ext m c tsImages1 tsImages2 ls :
  (∀ l x y gid tileset,
     l ∈ ls → (x, y) ∈ raster (Map.Width m) (Map.Height m) →
     Layer.Tiles l !! (x, y) = Some gid →
     FindTileset m gid = Some tileset →
     tsImages1 !! filepath_Base (Tileset.Source (Tileset.Image tileset))
     = tsImages2 !! filepath_Base (Tileset.Source (Tileset.Image tileset))) →
  ∀ s, run_layers m c tsImages1 ls s = run_layers m c tsImages2 ls s.
Proof.
  intros Hsame s. unfold run_layers. apply for_each_ext. intros s1 l Hl.
  unfold layer_step. rewrite !compile_layer_raster.
  assert (run_cells m c tsImages1 l (layerOffset s1)
            (raster (Map.Width m) (Map.Height m)) layer_init
          = run_cells m c tsImages2 l (layerOffset s1)
              (raster (Map.Width m) (Map.Height m)) layer_init) as ->; [|done].
  unfold run_cells. apply for_each_ext. intros st [x y] Hxy. cbn [fst snd].
  apply cell_images_ext. intros gid tileset. by apply Hsame.
Qed.


(** *** The meshes of the result *)

(** X1: the vertices and the texture coordinates of every batch of the result
    of [Load]: under the name of a layer, the last layer of that name, the
    mesh of batch [k] holds the cards of the cells of the grid whose tile
    belongs to a tileset with image [k], in the order of the loops (column
    after column); each card is oriented and moved to its cell, at the offset
    of the layer plus the tile offset that the tiles placed before it in the
    layer, in any batch, have left. A batch that is absent stands for the
    empty mesh. *)
Theorem Load_contents m (config : option Config) tsImages res before layer after :
  Load m config tsImages = Some res →
  Map.Layers m = before ++ layer :: after →
  (∀ l, l ∈ after → Layer.Name l ≠ Layer.Name layer) →
  let c := default default_config config in
  let lo := offset_after (LayerOffset c) (length before) (f64_of_int 0) in
  let cells := raster (Map.Width m) (Map.Height m) in
  ∃ batches,
    res !! Layer.Name layer = Some batches
    ∧ ∀ k,
        gfx.Vertices (batch_mesh batches k)
        = batch_cards m c tsImages layer lo k cells (f64_of_int 0)
        ∧ uv_channel (batch_mesh batches k) = batch_uvs m tsImages layer k cells.
Proof.
  intros HLoad Hlayers Hlast c lo cells.
  destruct (Load_entry _ _ _ _ _ _ _ HLoad Hlayers Hlast) as (st & Hst & Hres).
  exists (texObjects st). split; [done|]. intros k.
  rewrite compile_layer_raster in Hst.
  destruct (run_cells_contents _ _ _ _ _ _ _ _ one_mesh_empty Hst k) as [Hv Hu].
  rewrite Hv, Hu. unfold batch_mesh. cbn [texObjects layer_init].
  rewrite lookup_empty. done.
Qed.

(** X2: every object in the result of [Load] is a batch as lines 203-221 make
    it: the object sits under the base name of an image that was supplied, it
    has the shader of the package, no face culling and alpha to coverage, one
    texture (that image, clamped, with the two filters) and one mesh; the mesh
    has one set of texture coordinates, and as many vertices as texture
    coordinates, six for each of its tiles, of which there is at least one. *)
Theorem Load_batch_shape m (config : option Config) tsImages res name batches k obj :
  Load m config tsImages = Some res →
  res !! name = Some batches →
  batches !! k = Some obj →
  batch_shape tsImages k obj.
Proof.
  intros HLoad Hres Hobj. rewrite Load_run in HLoad.
  destruct (run_layers _ _ _ _ _) as [s|] eqn:Hrun; [|discriminate].
  injection HLoad as <-.
  refine (run_layers_shaped _ _ _ _ _ _ _ Hrun name batches Hres k obj Hobj).
  intros name' batches'. cbn [layers load_init]. by rewrite lookup_empty.
Qed.

(** X3: [Load] fails (a nil tileset is dereferenced on line 191) whenever
    some layer has, on a cell of the grid, a tile for which [FindTileset]
    returns nil: no image mapping, not even the empty one with which no tile
    would be drawn, and no configuration avoids the failure. *)
Theorem Load_nil_tileset m (config : option Config) tsImages l x y gid :
  l ∈ Map.Layers m →
  0 <= x < Map.Width m → 0 <= y < Map.Height m →
  Layer.Tiles l !! (x, y) = Some gid →
  FindTileset m gid = None →
  Load m config tsImages = None.
Proof.
  intros Hl Hx Hy Hgid Hnil.
  destruct (Load m config tsImages) as [res|] eqn:HLoad; [|done].
  rewrite Load_run in HLoad.
  destruct (run_layers _ _ _ _ _) as [s|] eqn:Hrun; [|discriminate].
  destruct (run_layers_found _ _ _ _ _ (ex_intro _ s Hrun) l Hl (x, y) gid)
    as [tileset Hts]; [by apply elem_of_raster|done|congruence].
Qed.

(** X4: a map without cells (a width or a height that is zero or negative):
    [Load] returns a result with one entry for each layer name, each without
    any batch, whatever tiles the layers hold and whether or not they have a
    tileset. *)
Theorem Load_empty_grid m (config : option Config) tsImages :
  Map.Width m <= 0 ∨ Map.Height m <= 0 →
  ∃ res,
    Load m config tsImages = Some res
    ∧ ∀ name,
        res !! name
        = if decide (name ∈ Layer.Name <$> Map.Layers m) then Some ∅ else None.
Proof.
  intros Hempty. apply raster_empty in Hempty.
  destruct (Load_is_Some m config tsImages) as [res HLoad].
  { intros l _ xy gid Hin. rewrite Hempty in Hin. by apply elem_of_nil in Hin. }
  exists res. split; [done|]. intros name.
  destruct (res !! name) as [batches|] eqn:Hres.
  - destruct (Load_entry_inv _ _ _ _ _ _ HLoad Hres)
      as (before & layer & after & st & Hlayers & Hname & _ & Hst & ->).
    rewrite decide_True.
    2:{ apply list_elem_of_fmap. exists layer. split; [done|].
        rewrite Hlayers. apply elem_of_app. right. left. }
    rewrite compile_layer_raster, Hempty in Hst.
    change (Some layer_init = Some st) in Hst. by injection Hst as <-.
  - rewrite decide_False; [done|]. intros Hin.
    destruct (last_named _ _ Hin) as (before & layer & after & Hlayers & Hname & Hlast).
    destruct (Load_entry _ _ _ _ _ _ _ HLoad Hlayers Hlast) as (st & _ & Hentry).
    congruence.
Qed.

(** X5: [Load] looks an image up only under the base name of the image of a
    tileset that owns a tile on the grid: two image mappings that agree on
    these names give the same result, so that images supplied under other
    names are ignored. *)
Theorem Load_unused_images m (config : option Config) tsImages1 tsImages2 :
  (∀ l x y gid tileset,
     l ∈ Map.Layers m →
     0 <= x < Map.Width m → 0 <= y < Map.Height m →
     Layer.Tiles l !! (x, y) = Some gid →
     FindTileset m gid = Some tileset →
     tsImages1 !! filepath_Base (Tileset.Source (Tileset.Image tileset))
     = tsImages2 !! filepath_Base (Tileset.Source (Tileset.Image tileset))) →
  Load m config tsImages1 = Load m config tsImages2.
Proof.
  intros Hsame. rewrite !Load_run. f_equal. apply run_layers_images_ext.
  intros l x y gid tileset Hl [Hx Hy]%elem_of_raster. by apply Hsame.
Qed.

End LoadFacts.

(** ** The sets of texture coordinates of a card *)

(** X6: [appendCard] writes the texture coordinates of a card to the first set
    of the mesh and to no other: the first set is made if the mesh has none,
    and the sets after the first are kept as they are. *)
Theorem appendCard_first_set {F : FloatOps} (m : gfx.Mesh) l r b t depth rect tex :
  let m' := appendCard m l r b t depth rect tex in
  gfx.TexCoords m'
  = {| gfx.Slice := uv_channel m ++ card_uvs rect tex |} :: tail (gfx.TexCoords m)
  ∧ length (gfx.TexCoords m') = Nat.max 1 (length (gfx.TexCoords m))
  ∧ ∀ i : nat, gfx.TexCoords m' !! S i = gfx.TexCoords m !! S i.
Proof.
  cbv zeta. rewrite appendCard_sets.
  split; [reflexivity|]. destruct (gfx.TexCoords m) as [|s rest]; cbn.
  - split; [reflexivity|]. intros i. reflexivity.
  - split; [reflexivity|]. intros i. reflexivity.
Qed.

(** ** The loop that transforms a card *)

(** X7: the loop of lines 275-279 on any range inside the vertices: the
    vertices from [cardStart] to [cardEnd - 1] are replaced by their images
    under the transformation, the vertices before and after the range are left
    as they are, and the number of vertices does not change. *)
Theorem transform_card_range {F : FloatOps} {L : Lmath} (trans : Mat4)
    (cardStart cardEnd : nat) (verts : list gfx.Vec3) :
  (cardStart ≤ cardEnd ≤ length verts)%nat →
  transform_card trans cardStart cardEnd verts
  = take cardStart verts
    ++ (transform_vertex trans <$> take (cardEnd - cardStart) (drop cardStart verts))
    ++ drop cardEnd verts
  ∧ length (transform_card trans cardStart cardEnd verts) = length verts.
Proof.
  intros Hrange.
  assert (transform_card trans cardStart cardEnd verts
          = take cardStart verts
            ++ (transform_vertex trans
                  <$> take (cardEnd - cardStart) (drop cardStart verts))
            ++ drop cardEnd verts) as Heq.
  { unfold transform_card.
    set (pre := take cardStart verts).
    set (mid := take (cardEnd - cardStart) (drop cardStart verts)).
    set (post := drop cardEnd verts).
    assert (verts = pre ++ mid ++ post) as Hverts.
    { unfold pre, mid, post.
      replace (drop cardEnd verts)
        with (drop (cardEnd - cardStart) (drop cardStart verts))
        by (rewrite drop_drop; f_equal; lia).
      by rewrite !take_drop. }
    rewrite Hverts at 1.
    apply (transform_loop (transform_vertex trans) cardStart mid 0 pre post).
    unfold pre. rewrite length_take. lia. }
  split; [exact Heq|]. rewrite Heq.
  rewrite !length_app, length_fmap, !length_take, !length_drop. lia.
Qed.

(** ** Point lists, piece by piece *)

Lemma Split_app (a b : string) (sep : ascii) :
  strings.Split (a +:+ String sep b) sep = strings.Split a sep ++ strings.Split b sep.
Proof.
  induction a as [|ch a IH].
  { change (EmptyString +:+ String sep b) with (String sep b).
    cbn [strings.Split app]. by rewrite Ascii.eqb_refl. }
  change (String ch a +:+ String sep b) with (String ch (a +:+ String sep b)).
  cbn [strings.Split].
  destruct (Ascii.eqb ch sep); [by rewrite IH|].
  rewrite IH. pose proof (Split_length a sep) as Hlen.
  destruct (strings.Split a sep) as [|piece pieces]; [discriminate|reflexivity].
Qed.

(** X9: the points of two point lists written one after the other with a space
    between them are the points of the first followed by the points of the
    second; the empty text has no point. *)
Theorem toPoints_app (a b : string) :
  toPoints {| Data := a +:+ " " +:+ b |}
  = toPoints {| Data := a |} ++ toPoints {| Data := b |}
  ∧ toPoints {| Data := EmptyString |} = [].
Proof.
  split; [|reflexivity]. unfold toPoints. cbn [Data]. rewrite !toPoints_fold.
  cbn [app]. change (" " +:+ b) with (String " " b).
  by rewrite Split_app, omap_app.
Qed.

(** ** Point lists, there and back *)

(** Strings without a given byte, and strings without white space. *)

Lemma Split_without (s : string) (sep : ascii) :
  Forall (λ ch, ch ≠ sep) (list_ascii_of_string s) → strings.Split s sep = [s].
Proof.
  induction s as [|ch s IH]; cbn [list_ascii_of_string strings.Split]; [done|].
  intros [Hne Hrest]%Forall_cons. rewrite (IH Hrest).
  by apply Ascii.eqb_neq in Hne as ->.
Qed.

Lemma TrimSpace_without (s : string) :
  Forall (λ ch, strings.isSpace ch = false) (list_ascii_of_string s) →
  strings.TrimSpace s = s.
Proof.
  intros Hplain. unfold strings.TrimSpace.
  assert (strings.TrimLeft s = s) as ->.
  { destruct s as [|ch s]; [done|]. apply Forall_cons in Hplain as [Hch _].
    cbn [strings.TrimLeft]. by rewrite Hch. }
  induction s as [|ch s IH]; [done|].
  cbn [list_ascii_of_string] in Hplain. apply Forall_cons in Hplain as [Hch Hrest].
  cbn [strings.TrimRight]. rewrite (IH Hrest), Hch. by destruct s.
Qed.

Lemma list_ascii_of_append (a b : string) :
  list_ascii_of_string (a +:+ b) = list_ascii_of_string a ++ list_ascii_of_string b.
Proof.
  induction a as [|ch a IH]; [done|].
  change (String ch a +:+ b) with (String ch (a +:+ b)).
  cbn [list_ascii_of_string app]. by rewrite IH.
Qed.

Lemma uint_bytes (d : Decimal.uint) :
  Forall number_byte (list_ascii_of_string (NilEmpty.string_of_uint d)).
Proof.
  induction d; cbn [NilEmpty.string_of_uint list_ascii_of_string];
    [by apply Forall_nil|..];
    (apply Forall_cons; split; [by repeat split|done]).
Qed.

Lemma render_int_bytes (z : Z) :
  Forall number_byte (list_ascii_of_string (render_int z)).
Proof.
  assert (∀ d, Forall number_byte (list_ascii_of_string (NilZero.string_of_uint d)))
    as Huint.
  { intros d. pose proof (uint_bytes d) as Hd. destruct d; try exact Hd.
    cbn. apply Forall_cons. split; [by repeat split|by apply Forall_nil]. }
  unfold render_int. destruct (Z.to_int z) as [d|d]; cbn [NilZero.string_of_int].
  - apply Huint.
  - cbn [list_ascii_of_string]. apply Forall_cons. split; [by repeat split|apply Huint].
Qed.

(** Reading the digits of a number gives the number. *)

Ltac read_digit :=
  match goal with
  | |- context [strconv.digit ?ch] =>
      let v := eval vm_compute in (strconv.digit ch) in
      change (strconv.digit ch) with v; cbn [mbind option_bind]
  end.

Lemma digits_of_uint_acc (d : Decimal.uint) :
  ∀ acc : positive,
    strconv.digits (Z.pos acc) (NilEmpty.string_of_uint d)
    = Some (Z.pos (Pos.of_uint_acc d acc)).
Proof.
  induction d; intros acc;
    cbn [NilEmpty.string_of_uint strconv.digits Pos.of_uint_acc]; [done|..];
    read_digit; rewrite <- IHd; f_equal; lia.
Qed.

Lemma digits_of_uint (d : Decimal.uint) :
  strconv.digits 0 (NilEmpty.string_of_uint d) = Some (Z.of_uint d).
Proof.
  induction d; cbn [NilEmpty.string_of_uint strconv.digits]; [done|..];
    read_digit; [exact IHd|..]; exact (digits_of_uint_acc d _).
Qed.

Lemma parse_of_int (i : Decimal.signed_int) :
  strconv.parse (NilZero.string_of_int i) = Some (Z.of_int i).
Proof.
  destruct i as [d|d]; cbn [NilZero.string_of_int Z.of_int].
  - destruct d; try exact (digits_of_uint _). reflexivity.
  - pose proof (digits_of_uint d) as Hd.
    destruct d; cbn [NilZero.string_of_uint NilEmpty.string_of_uint] in *;
      try (cbn [strconv.parse]; rewrite Hd; reflexivity).
    reflexivity.
Qed.

(** The value that [Atoi] returns for a number in decimal: the number,
    or the nearest [int] when it is not one. *)
Lemma Atoi_render_int (z : Z) : (strconv.Atoi (render_int z)).1 = clamp_int z.
Proof.
  unfold strconv.Atoi, render_int, clamp_int.
  rewrite parse_of_int, DecimalZ.of_to.
  destruct (decide (z < - 2 ^ 63)); [cbn [fst]; lia|].
  destruct (decide (2 ^ 63 - 1 < z)); cbn [fst]; lia.
Qed.

Lemma clamp_int_id (z : Z) : is_int z → clamp_int z = z.
Proof. unfold is_int, clamp_int. lia. Qed.

Lemma point_of_render_point (p : Point) :
  point_of_pair (render_point p) = Some (clamp_point p).
Proof.
  unfold point_of_pair, render_point.
  pose proof (render_int_bytes (PointX p)) as Hbx.
  pose proof (render_int_bytes (PointY p)) as Hby.
  assert (∀ z, strings.TrimSpace (render_int z) = render_int z) as Htrim.
  { intros z. apply TrimSpace_without.
    eapply Forall_impl; [apply render_int_bytes|]. by intros ch [? _]. }
  rewrite TrimSpace_without.
  2:{ rewrite list_ascii_of_append. apply Forall_app. split.
      - eapply Forall_impl; [exact Hbx|]. by intros ch [? _].
      - change ("," +:+ render_int (PointY p)) with (String "," (render_int (PointY p))).
        cbn [list_ascii_of_string]. apply Forall_cons. split; [done|].
        eapply Forall_impl; [exact Hby|]. by intros ch [? _]. }
  change ("," +:+ render_int (PointY p)) with (String "," (render_int (PointY p))).
  rewrite Split_app, !Split_without.
  2:{ eapply Forall_impl; [exact Hby|]. by intros ch (_ & _ & ?). }
  2:{ eapply Forall_impl; [exact Hbx|]. by intros ch (_ & _ & ?). }
  cbn [app]. by rewrite !Htrim, !Atoi_render_int.
Qed.

Lemma Split_render_point (p : Point) :
  strings.Split (render_point p) " " = [render_point p].
Proof.
  apply Split_without. unfold render_point.
  rewrite list_ascii_of_append. apply Forall_app. split.
  - eapply Forall_impl; [apply render_int_bytes|]. by intros ch (_ & ? & _).
  - change ("," +:+ render_int (PointY p)) with (String "," (render_int (PointY p))).
    cbn [list_ascii_of_string]. apply Forall_cons. split; [done|].
    eapply Forall_impl; [apply render_int_bytes|]. by intros ch (_ & ? & _).
Qed.

(** X10: a point list that is written out in the format of TMX is read back as
    it was: [toPoints] returns the points, in order, when their coordinates
    are values of [int]. A coordinate that is too large or too small for an
    [int] is read as the largest or the smallest [int] (the range error of
    [Atoi] is discarded). *)
Theorem toPoints_render_points (ps : list Point) :
  toPoints {| Data := render_points ps |} = clamp_point <$> ps
  ∧ (Forall (λ p, is_int (PointX p) ∧ is_int (PointY p)) ps →
     toPoints {| Data := render_points ps |} = ps).
Proof.
  assert (toPoints {| Data := render_points ps |} = clamp_point <$> ps) as Hread.
  { unfold toPoints. cbn [Data]. rewrite toPoints_fold. cbn [app].
    induction ps as [|p ps IH]; [reflexivity|].
    destruct ps as [|p' ps].
    - cbn [render_points]. rewrite Split_render_point. cbn [omap list_omap].
      by rewrite point_of_render_point.
    - change (render_points (p :: p' :: ps))
        with (render_point p +:+ " " +:+ render_points (p' :: ps)).
      change (" " +:+ render_points (p' :: ps))
        with (String " " (render_points (p' :: ps))).
      rewrite Split_app, omap_app, IH, Split_render_point. cbn [omap list_omap].
      by rewrite point_of_render_point. }
  split; [exact Hread|]. intros Hints. rewrite Hread. clear Hread.
  induction Hints as [|p ps [Hx Hy] Hints IH]; [reflexivity|].
  cbn [fmap list_fmap]. f_equal; [|exact IH].
  unfold clamp_point. rewrite !clamp_int_id by done. by destruct p.
Qed.

(** ** The offsets, by the number of tiles and layers *)

(** X11: the vertical offset of a layer is what as many float64
    subtractions of [Config.LayerOffset] as there are layers before it leave
    of 0, and the vertical coordinate of a tile is the offset of its layer
    plus what as many subtractions of [Config.TileOffset] as there are tiles
    placed before it in the layer leave of 0: they depend on these two numbers
    only, and the cells without a compiled tile do not count. *)
Theorem offsets_by_count {F : FloatOps} {L : Lmath} {T : Tmx} (m : Map.t)
    (c : Config) (tsImages : gmap string image.RGBA) :
  (∀ earlier lo,
     base_after m c tsImages earlier = Some lo →
     lo = offset_after (LayerOffset c) (length earlier) (f64_of_int 0))
  ∧ (∀ layer lo visited y,
       vertical_after m c tsImages layer lo visited = Some y →
       y = f64_add lo
             (offset_after (TileOffset c)
                (length (filter (placed m tsImages layer) visited)) (f64_of_int 0))).
Proof.
  split.
  - intros earlier lo Hbase. unfold base_after in Hbase.
    destruct (run_layers m c tsImages earlier load_init) as [s|] eqn:Hrun;
      [|discriminate].
    cbn [mbind option_bind] in Hbase. injection Hbase as <-.
    by rewrite (run_layers_offset _ _ _ _ _ _ Hrun).
  - intros layer lo visited y Hvert. unfold vertical_after in Hvert.
    destruct (run_cells m c tsImages layer lo visited layer_init) as [st|] eqn:Hrun;
      [|discriminate].
    cbn [mbind option_bind] in Hvert. injection Hvert as <-.
    by destruct (run_cells_summary _ _ _ _ _ _ _ _ one_mesh_empty Hrun)
      as (_ & _ & _ & ->).
Qed.

(** * The properties on the example maps *)

Section Examples.
#[local] Existing Instance exact_floats.
#[local] Existing Instance Exact.lmath.
#[local] Existing Instance Spec.tmx.

(** C3, counterexample: a map of 32x32 cells whose tileset has 64x64
    tiles.  The tile at (0, 0) is placed, and its translation is (32, 0, 0):
    half the size of the tile of the tileset is used, where the translation
    worded with the tile size of the map is (16, 0, 16). *)
Lemma placement_of_big_tile :
  let zero := IEEE.f64 0 in
  let code := move_of (F := ieee_floats) Demo.big_map Demo.big_tileset 0 0 zero zero in
  let claim := move_spec (F := ieee_floats) Demo.big_map 0 0 zero zero in
  cell_key Demo.big_map Demo.big_images Demo.ground (0, 0) = Some "big.png"
  ∧ FindTileset Demo.big_map 1 = Some Demo.big_tileset
  ∧ lmath.vx code = IEEE.f64 32 ∧ lmath.vz code = IEEE.f64 0
  ∧ lmath.vx claim = IEEE.f64 16 ∧ lmath.vz claim = IEEE.f64 16
  ∧ code ≠ claim.
Proof.
  cbv zeta.
  assert (lmath.vx (move_of (F := ieee_floats) Demo.big_map Demo.big_tileset 0 0
                      (IEEE.f64 0) (IEEE.f64 0)) = IEEE.f64 32) as Hcode
    by (vm_compute; reflexivity).
  assert (lmath.vx (move_spec (F := ieee_floats) Demo.big_map 0 0
                      (IEEE.f64 0) (IEEE.f64 0)) = IEEE.f64 16) as Hclaim
    by (vm_compute; reflexivity).
  split; [vm_compute; reflexivity|]. split; [vm_compute; reflexivity|].
  split; [exact Hcode|]. split; [vm_compute; reflexivity|].
  split; [exact Hclaim|]. split; [vm_compute; reflexivity|].
  intros Heq. rewrite Heq, Hclaim in Hcode. vm_compute in Hcode. discriminate.
Qed.

(** C4, counterexample: with the configuration [Config{0, 0}] the two
    tiles of the first layer of [Demo.two_layers] are placed at the same
    vertical coordinate and the second layer at the same offset as the first:
    nothing is strictly less.  And in float64 a positive offset can be
    rounded away: at layerOffset -1 a tileOffset that goes from 0 to
    -2^-60 leaves the vertical coordinate at -1. *)
Lemma offsets_can_stay :
  placed Demo.two_layers Demo.images Demo.ground_full (0, 0) = true
  ∧ vertical_after Demo.two_layers Demo.flat Demo.images Demo.ground_full 0%Q []
    = Some (0 + 0)%Q
  ∧ vertical_after Demo.two_layers Demo.flat Demo.images Demo.ground_full 0%Q [(0, 0)]
    = Some (0 + (0 - 0))%Q
  ∧ ¬ (0 + (0 - 0) < 0 + 0)%Q
  ∧ base_after Demo.two_layers Demo.flat Demo.images [Demo.ground_full]
    = Some (0 - 0)%Q
  ∧ ¬ (0 - 0 < 0)%Q
  ∧ (let lo := IEEE.f64 (-1) in
     let step := f64_div (FloatOps := ieee_floats) (IEEE.f64 1) (IEEE.f64 (2 ^ 60)) in
     SFltb (IEEE.f64 0) step = true
     ∧ f64_add (FloatOps := ieee_floats) lo
         (f64_sub (FloatOps := ieee_floats) (IEEE.f64 0) step)
       = f64_add (FloatOps := ieee_floats) lo (IEEE.f64 0)).
Proof.
  split; [vm_compute; reflexivity|].
  split; [vm_compute; reflexivity|].
  split; [vm_compute; reflexivity|].
  split; [by vm_compute|].
  split; [vm_compute; reflexivity|].
  split; [by vm_compute|].
  split; vm_compute; reflexivity.
Qed.

(** C7, counterexample: the example map without any image.  The result
    is not the empty mapping: it has the entry of the layer "ground", with no
    batch in it. *)
Lemma Load_without_images_keeps_layers :
  Load Demo.map None ∅ = Some {[ "ground" := ∅ ]}
  ∧ ({[ "ground" := ∅ ]} : gmap string (gmap string gfx.Object)) !! "ground" = Some ∅
  ∧ Load Demo.map None ∅ ≠ Some ∅.
Proof.
  assert (Load Demo.map None ∅ = Some {[ "ground" := ∅ ]}) as HLoad
    by (vm_compute; reflexivity).
  split; [exact HLoad|]. split; [apply lookup_singleton_eq|].
  rewrite HLoad. intros [=].
Qed.

(** The tile of the example map, through [tile_placement]: the card
    covers the cell from 0 to 32 on both axes, its center is at 16 and 16. *)
Lemma tile_placement_example :
  ∃ st',
    cell Demo.map Demo.config Demo.images Demo.ground 0%Q 0 0 layer_init = Some st'
    ∧ gfx.Vertices (batch_mesh (texObjects st') "tiles.png")
      = [ {| gfx.vx := 0%Q; gfx.vy := 0%Q; gfx.vz := 32%Q |};
          {| gfx.vx := 0%Q; gfx.vy := 0%Q; gfx.vz := 0%Q |};
          {| gfx.vx := 32%Q; gfx.vy := 0%Q; gfx.vz := 0%Q |};
          {| gfx.vx := 0%Q; gfx.vy := 0%Q; gfx.vz := 32%Q |};
          {| gfx.vx := 32%Q; gfx.vy := 0%Q; gfx.vz := 0%Q |};
          {| gfx.vx := 32%Q; gfx.vy := 0%Q; gfx.vz := 32%Q |} ].
Proof.
  destruct (proj1 tile_placement exact_floats Exact.lmath Spec.tmx
              Demo.map Demo.config Demo.images Demo.ground 0%Q [] layer_init
              0 0 1 Demo.tileset Demo.tiles_png)
    as (st' & Hcell & Hverts); [reflexivity | reflexivity | reflexivity | reflexivity |].
  exists st'. split; [exact Hcell|].
  refine (eq_trans Hverts _). vm_compute. reflexivity.
Defined.

(** The second layer of [Demo.two_layers] and the second tile of its
    first layer, through [offsets_decrease]. *)
Lemma offsets_decrease_example :
  ∃ lo' ya yb,
    base_after Demo.two_layers Demo.config Demo.images [Demo.ground_full] = Some lo'
    ∧ (lo' < 0)%Q
    ∧ vertical_after Demo.two_layers Demo.config Demo.images Demo.ground_full 0%Q []
      = Some ya
    ∧ vertical_after Demo.two_layers Demo.config Demo.images Demo.ground_full 0%Q
        [(0, 0)] = Some yb
    ∧ (yb < ya)%Q.
Proof.
  destruct (proj2 offsets_decrease Exact.lmath Spec.tmx Demo.two_layers Demo.config
              Demo.images) as (Hlayer & Htile).
  eexists _, _, _.
  split; [vm_compute; reflexivity|].
  split.
  { refine (proj2 (Hlayer [] Demo.ground_full 0%Q _ _ _) _); vm_compute; reflexivity. }
  split; [vm_compute; reflexivity|].
  split; [vm_compute; reflexivity|].
  refine (proj2 (Htile Demo.ground_full 0%Q [] (0, 0) [] _ _ _ _ _ _) _).
  - vm_compute. exact I.
  - intros xy Hxy. by apply elem_of_nil in Hxy.
  - vm_compute. reflexivity.
  - vm_compute. reflexivity.
  - vm_compute. reflexivity.
Defined.

(** The first tile of the example map, through [appendCard_six]. *)
Lemma appendCard_six_example :
  ∃ st',
    cell Demo.map Demo.config Demo.images Demo.ground 0%Q 0 0 layer_init = Some st'
    ∧ batch_vertices (texObjects st') "tiles.png" = 6%nat.
Proof.
  destruct (proj2 appendCard_six Demo.map Demo.config Demo.images Demo.ground 0%Q
              [] layer_init 0 0 "tiles.png")
    as (st' & Hcell & Hsix & _); [reflexivity | vm_compute; reflexivity |].
  exists st'. split; [exact Hcell | exact Hsix].
Defined.

(** A map with two tilesets and the image of the first only, through
    [Load_missing_image]: one batch, with the one tile of the first
    tileset. *)
Lemma Load_missing_image_example :
  ∃ res batches,
    Load Demo.two_tilesets None Demo.images = Some res
    ∧ res !! "mixed" = Some batches
    ∧ batch_vertices batches "tiles.png" = 6%nat
    ∧ batches !! "other.png" = None.
Proof.
  destruct (proj1 (proj2 Load_missing_image) Demo.two_tilesets None Demo.images)
    as [res HLoad].
  { intros l Hl. apply list_elem_of_singleton in Hl as ->.
    intros xy gid Hxy Hgid. unfold Demo.mixed in Hgid. cbn [Layer.Tiles] in Hgid.
    apply lookup_insert_Some in Hgid as [[<- <-]|[_ Hgid]];
      [eexists; vm_compute; reflexivity|].
    apply lookup_singleton_Some in Hgid as [<- <-]. eexists. vm_compute. reflexivity. }
  destruct (proj2 (proj2 Load_missing_image) Demo.two_tilesets None Demo.images res
              [] Demo.mixed [] HLoad eq_refl)
    as (batches & Hres & Hbatches).
  { intros l Hl. by apply elem_of_nil in Hl. }
  exists res, batches. split; [exact HLoad|]. split; [exact Hres|]. split.
  - destruct (Hbatches "tiles.png") as (_ & _ & ->). vm_compute. reflexivity.
  - destruct (Hbatches "other.png") as (_ & Hdom & _).
    apply eq_None_not_Some. intros Hsome. apply Hdom in Hsome. apply Hsome.
    vm_compute. reflexivity.
Defined.

(** The example map without images, through [Load_without_images]. *)
Lemma Load_without_images_example :
  ∃ res, Load Demo.map None ∅ = Some res ∧ res !! "ground" = Some ∅.
Proof.
  destruct (Load_without_images Demo.map None ∅) as (res & HLoad & Hres & _).
  { intros l x y gid Hl Hxy Hgid. apply list_elem_of_singleton in Hl as ->.
    unfold Demo.ground in Hgid. cbn [Layer.Tiles] in Hgid.
    apply lookup_singleton_Some in Hgid as [_ <-].
    exists Demo.tileset. split; [reflexivity | apply lookup_empty]. }
  exists res. split; [exact HLoad|]. rewrite Hres.
  apply decide_True. left.
Defined.

(** A tile outside the grid does not change the layer, through
    [Load_deterministic]. *)
Lemma Load_deterministic_example :
  compile_layer Demo.map Demo.config Demo.images Demo.ground 0%Q
  = compile_layer Demo.map Demo.config Demo.images Demo.ground_far 0%Q.
Proof.
  apply (proj1 (proj2 (proj2 (proj2 Load_deterministic)))).
  intros xy Hxy. change (xy ∈ [(0, 0); (1, 0)]) in Hxy.
  apply elem_of_cons in Hxy as [->|Hxy]; [vm_compute; reflexivity|].
  apply list_elem_of_singleton in Hxy as ->. vm_compute. reflexivity.
Defined.

(** Two layers "ground", through [Load_same_name]: the entry "ground"
    holds the one tile of the second layer, not the two of the first. *)
Lemma Load_same_name_example :
  ∃ res st2,
    Load Demo.two_layers (Some Demo.config) Demo.images = Some res
    ∧ compile_layer Demo.two_layers Demo.config Demo.images Demo.ground (0 - (1 # 1024))%Q
      = Some st2
    ∧ res !! "ground" = Some (texObjects st2)
    ∧ batch_vertices (texObjects st2) "tiles.png" = 6%nat.
Proof.
  destruct (Load_is_Some Demo.two_layers (Some Demo.config) Demo.images)
    as [res HLoad].
  { intros l Hl xy gid _ Hgid. exists Demo.tileset.
    apply elem_of_cons in Hl as [->|Hl].
    - unfold Demo.ground_full in Hgid. cbn [Layer.Tiles] in Hgid.
      apply lookup_insert_Some in Hgid as [[_ <-]|[_ Hgid]]; [reflexivity|].
      apply lookup_singleton_Some in Hgid as [_ <-]. reflexivity.
    - apply list_elem_of_singleton in Hl as ->.
      unfold Demo.ground in Hgid. cbn [Layer.Tiles] in Hgid.
      apply lookup_singleton_Some in Hgid as [_ <-]. reflexivity. }
  destruct (Load_same_name Demo.two_layers (Some Demo.config) Demo.images res
              [] Demo.ground_full [] Demo.ground [] HLoad eq_refl eq_refl)
    as [(st2 & Hst2 & Hres) _].
  { intros l Hl. by apply elem_of_nil in Hl. }
  exists res, st2. split; [exact HLoad|]. split; [exact Hst2|]. split; [exact Hres|].
  destruct (compile_layer_batches _ _ _ _ _ _ Hst2 "tiles.png") as [_ ->].
  vm_compute. reflexivity.
Defined.

(** The pair "a,b", through [toPoints_lenient]. *)
Lemma toPoints_lenient_example :
  point_of_pair "a,b" = Some {| PointX := 0; PointY := 0 |}.
Proof.
  exact (proj1 (proj2 (proj2 toPoints_lenient)) "a,b" "a" "b" eq_refl).
Defined.

(** A GID with the diagonal and the horizontal flags, through
    [flip_of_table]: the transform is the rotation by +90 degrees. *)
Lemma flip_of_table_example :
  diagFlipped (2 ^ 29 + 2 ^ 30 + 1) = true
  ∧ horizFlipped (2 ^ 29 + 2 ^ 30 + 1) = true
  ∧ vertFlipped (2 ^ 29 + 2 ^ 30 + 1) = false
  ∧ flip_of (2 ^ 29 + 2 ^ 30 + 1) = compose [Rot90].
Proof.
  destruct (flip_of_table (2 ^ 29 + 2 ^ 30 + 1)) as [(Hd & Hh & Hv) Hflip];
    [reflexivity | reflexivity | reflexivity |].
  split; [exact Hd|]. split; [exact Hh|]. split; [exact Hv|]. exact Hflip.
Defined.

End Examples.

(** * The further properties on the example maps *)

Section MoreExamples.
#[local] Existing Instance exact_floats.
#[local] Existing Instance Exact.lmath.
#[local] Existing Instance Spec.tmx.

(** The two tiles of the first layer of [Demo.two_layers], through
    [Load_contents]: the layer is not the last of its name, so the
    contents are those of the second layer, one tile at the offset -1/1024. *)
Lemma Load_contents_example :
  ∃ res batches,
    Load Demo.two_layers (Some Demo.config) Demo.images = Some res
    ∧ res !! "ground" = Some batches
    ∧ gfx.Vertices (batch_mesh batches "tiles.png")
      = [ {| gfx.vx := 0%Q; gfx.vy := (-1 # 1024)%Q; gfx.vz := 32%Q |};
          {| gfx.vx := 0%Q; gfx.vy := (-1 # 1024)%Q; gfx.vz := 0%Q |};
          {| gfx.vx := 32%Q; gfx.vy := (-1 # 1024)%Q; gfx.vz := 0%Q |};
          {| gfx.vx := 0%Q; gfx.vy := (-1 # 1024)%Q; gfx.vz := 32%Q |};
          {| gfx.vx := 32%Q; gfx.vy := (-1 # 1024)%Q; gfx.vz := 0%Q |};
          {| gfx.vx := 32%Q; gfx.vy := (-1 # 1024)%Q; gfx.vz := 32%Q |} ]
    ∧ length (uv_channel (batch_mesh batches "tiles.png")) = 6%nat.
Proof.
  destruct (Load_is_Some Demo.two_layers (Some Demo.config) Demo.images)
    as [res HLoad].
  { intros l Hl xy gid _ Hgid. exists Demo.tileset.
    apply elem_of_cons in Hl as [->|Hl].
    - unfold Demo.ground_full in Hgid. cbn [Layer.Tiles] in Hgid.
      apply lookup_insert_Some in Hgid as [[_ <-]|[_ Hgid]]; [reflexivity|].
      apply lookup_singleton_Some in Hgid as [_ <-]. reflexivity.
    - apply list_elem_of_singleton in Hl as ->.
      unfold Demo.ground in Hgid. cbn [Layer.Tiles] in Hgid.
      apply lookup_singleton_Some in Hgid as [_ <-]. reflexivity. }
  destruct (Load_contents Demo.two_layers (Some Demo.config) Demo.images res
              [Demo.ground_full] Demo.ground [] HLoad eq_refl)
    as (batches & Hres & Hcontents).
  { intros l Hl. by apply elem_of_nil in Hl. }
  exists res, batches. split; [exact HLoad|]. split; [exact Hres|].
  destruct (Hcontents "tiles.png") as [Hv Hu]. split.
  - refine (eq_trans Hv _). vm_compute. reflexivity.
  - rewrite Hu. vm_compute. reflexivity.
Defined.

(** The batch of the example map, through [Load_batch_shape]. *)
Lemma Load_batch_shape_example :
  ∃ res batches obj,
    Load Demo.map None Demo.images = Some res
    ∧ res !! "ground" = Some batches
    ∧ batches !! "tiles.png" = Some obj
    ∧ batch_shape Demo.images "tiles.png" obj.
Proof.
  destruct (Load_is_Some Demo.map None Demo.images) as [res HLoad].
  { intros l Hl xy gid _ Hgid. exists Demo.tileset.
    apply list_elem_of_singleton in Hl as ->.
    unfold Demo.ground in Hgid. cbn [Layer.Tiles] in Hgid.
    apply lookup_singleton_Some in Hgid as [_ <-]. reflexivity. }
  destruct (Load_entry Demo.map None Demo.images res [] Demo.ground [] HLoad eq_refl)
    as (st & Hst & Hres).
  { intros l Hl. by apply elem_of_nil in Hl. }
  destruct (compile_layer_batches _ _ _ _ _ _ Hst "tiles.png") as [Hdom _].
  destruct (proj2 Hdom) as [obj Hobj]; [vm_compute; discriminate|].
  exists res, (texObjects st), obj.
  split; [exact HLoad|]. split; [exact Hres|]. split; [exact Hobj|].
  exact (Load_batch_shape Demo.map None Demo.images res "ground" (texObjects st)
           "tiles.png" obj HLoad Hres Hobj).
Defined.

(** A map of width 0, through [Load_empty_grid]: the layer "ground"
    has an entry without batches, although its tile has no tileset. *)
Lemma Load_empty_grid_example :
  ∃ res, Load no_cells None Demo.images = Some res ∧ res !! "ground" = Some ∅.
Proof.
  destruct (Load_empty_grid no_cells None Demo.images) as (res & HLoad & Hres).
  { left. vm_compute. discriminate. }
  exists res. split; [exact HLoad|]. rewrite Hres. apply decide_True. left.
Defined.

(** An image that no tileset names, through [Load_unused_images]. *)
Lemma Load_unused_images_example :
  Load Demo.map None Demo.images
  = Load Demo.map None (<["big.png" := Demo.big_png]> Demo.images).
Proof.
  apply Load_unused_images.
  intros l x y gid tileset Hl _ _ Hgid Hts.
  apply list_elem_of_singleton in Hl as ->.
  unfold Demo.ground in Hgid. cbn [Layer.Tiles] in Hgid.
  apply lookup_singleton_Some in Hgid as [_ <-].
  change (Some Demo.tileset = Some tileset) in Hts. injection Hts as <-.
  vm_compute. reflexivity.
Defined.

(** Three vertices of which the second is moved by (1, 2, 3), through
    [transform_card_range]. *)
Lemma transform_card_range_example :
  let a := @gfx.Build_Vec3 exact_floats 0%Q 0%Q 0%Q in
  let b := @gfx.Build_Vec3 exact_floats 1%Q 1%Q 1%Q in
  let trans := Mat4FromTranslation (@lmath.Build_Vec3 exact_floats 1%Q 2%Q 3%Q) in
  transform_card trans 1 2 [a; b; a] = [a; transform_vertex trans b; a]
  ∧ length (transform_card trans 1 2 [a; b; a]) = 3%nat.
Proof.
  intros a b trans. apply (transform_card_range trans 1 2 [a; b; a]). cbn. lia.
Defined.

(** Two points, one with a negative coordinate, through
    [toPoints_render_points]. *)
Lemma toPoints_render_points_example :
  toPoints {| Data := "1,2 -3,40" |}
  = [ {| PointX := 1; PointY := 2 |}; {| PointX := -3; PointY := 40 |} ].
Proof.
  apply (proj2 (toPoints_render_points
                  [ {| PointX := 1; PointY := 2 |}; {| PointX := -3; PointY := 40 |} ])).
  repeat constructor; cbn; lia.
Defined.

(** The second layer of [Demo.two_layers] and the second tile of its
    first layer, through [offsets_by_count]. *)
Lemma offsets_by_count_example :
  ∃ lo y,
    base_after Demo.two_layers Demo.config Demo.images [Demo.ground_full] = Some lo
    ∧ lo = (0 - (1 # 1024))%Q
    ∧ vertical_after Demo.two_layers Demo.config Demo.images Demo.ground_full 0%Q
        [(0, 0)] = Some y
    ∧ y = (0 + (0 - (1 # 1048576)))%Q.
Proof.
  destruct (offsets_by_count Demo.two_layers Demo.config Demo.images)
    as [Hlayer Htile].
  eexists _, _.
  split; [vm_compute; reflexivity|].
  split; [apply (Hlayer [Demo.ground_full]); vm_compute; reflexivity|].
  split; [vm_compute; reflexivity|].
  apply (Htile Demo.ground_full 0%Q [(0, 0)]). vm_compute. reflexivity.
Defined.

(** The example map without its tileset, through [Load_nil_tileset]:
    [Load] fails although no image is supplied. *)
Lemma Load_nil_tileset_example : Load no_tilesets None ∅ = None.
Proof.
  apply (Load_nil_tileset no_tilesets None ∅ Demo.ground 0 0 1).
  - left.
  - cbn. lia.
  - cbn. lia.
  - reflexivity.
  - reflexivity.
Defined.

End MoreExamples.
